(** * Block quantisation of [filter.py] ([PixelArtGenerator])

    A shallow embedding of the pixel-art filter and the proofs of its
    specified properties.

    Modelling choices, all taken from the Python source:

    - an image array is a NumPy array of rank 2 (one value per pixel, a
      single-channel image) or of rank 3 (the channel values of each pixel,
      a colour image): a list of rows of pixels ([pixel], [rank]); a
      rectangular one is described by [rect], one with [ch] values in
      every pixel by [channels];
    - the arithmetic of [get_pixel_color] is NumPy's on its default integer
      element type (signed 64-bit, the type of the integer arrays in the
      docstring examples): [np.sum] adds every value of every pixel of the
      slice, modulo [2^64] ([wrap64]); the floor division converts the
      Python integer [step ** 2] to that type and, as NumPy does since its
      version 2, raises [OverflowError] when it does not fit; it yields 0
      for a zero divisor;
    - on a float64 array [np.sum] is a rounded sum whose order of additions
      the source does not fix: [get_pixel_color] is embedded there for the
      slices of two values only ([get_pixel_color_float64_pair]), where the
      order does not matter;
    - [self.gradation], [s // self.gradation] and the product and quotient
      of [set_pixel_color] are IEEE-754 binary64 numbers, computed with the
      bit-exact operations of [SpecFloat]; [//] is NumPy's [floor_divide],
      the brightness being the NumPy scalar that [get_pixel_color] returns;
    - the slice assignment of [set_pixel_color] converts the Python float
      to the element type of the array ([store]) and writes it into every
      value of every pixel of the slice: unchanged for a float64 array; for
      a 64-bit integer array through [int()], which raises [ValueError] on
      a NaN and [OverflowError] on an infinity or on an integer part
      outside the 64-bit range;
    - a decoded image has 8-bit samples ([eight_bit]); its sums stay far
      below [2^63] and, for a generator that [quantises], the values
      written stay within 0..255, so that with a step whose square fits 64
      bits the 64-bit arithmetic modelled here computes the values of the
      narrower types;
    - exceptions are values of [py_error] threaded through [result]. *)

From Stdlib Require Import ZArith Lia Bool SpecFloat.
From stdpp Require Import list.

Open Scope Z_scope.

(** ** Python exceptions and results *)

Inductive py_error : Type :=
  | ZeroDivisionError
  | ValueError
  | IndexError
  | OverflowError.

Inductive result (A : Type) : Type :=
  | OK (a : A)
  | Raise (e : py_error).

Arguments OK {A} a.
Arguments Raise {A} e.

Definition bind {A B : Type} (m : result A) (k : A -> result B) : result B :=
  match m with
  | OK a => k a
  | Raise e => Raise e
  end.

Notation "'do' x <- m ; k" := (bind m (fun x => k))
  (at level 10, x name, m at level 100, k at level 200).

(** ** Binary64 arithmetic *)

Module Float64.

Definition prec : Z := 53.
Definition emax : Z := 1024.

Definition float : Type := spec_float.

(** Conversion of an integer, rounded to nearest-even. *)
Definition of_Z (z : Z) : float := binary_normalize prec emax z 0 false.

Definition add : float -> float -> float := SFadd prec emax.
Definition sub : float -> float -> float := SFsub prec emax.
Definition mul : float -> float -> float := SFmul prec emax.
Definition div : float -> float -> float := SFdiv prec emax.
Definition ltb : float -> float -> bool := SFltb.

Definition zero : float := S754_zero false.
Definition one : float := of_Z 1.
Definition half : float := div one (of_Z 2).

(** C's [!x]. *)
Definition is_zero (x : float) : bool :=
  match x with S754_zero _ => true | _ => false end.

Definition signbit (x : float) : bool :=
  match x with
  | S754_zero s | S754_infinity s | S754_finite s _ _ => s
  | S754_nan => false
  end.

(** [copysign(0, y)]. *)
Definition copysign0 (y : float) : float := S754_zero (signbit y).

(** The integer [floor x] of a finite [x = (-1)^s * m * 2^e]. *)
Definition floorZ (x : float) : Z :=
  match x with
  | S754_finite s m e => Z.shiftl (cond_Zopp s (Zpos m)) e
  | _ => 0
  end.

(** The integer part of a finite [x], rounded toward zero. *)
Definition truncZ (x : float) : Z :=
  match x with
  | S754_finite s m e => cond_Zopp s (Z.shiftl (Zpos m) e)
  | _ => 0
  end.

(** C's [floor]. *)
Definition floor (x : float) : float :=
  match x with
  | S754_finite _ _ _ => binary_normalize prec emax (floorZ x) 0 (signbit x)
  | _ => x
  end.

(** C's [fmod]: the exact remainder, with the sign of the dividend. *)
Definition fmod (a b : float) : float :=
  match a, b with
  | S754_nan, _ | _, S754_nan => S754_nan
  | S754_infinity _, _ => S754_nan
  | _, S754_zero _ => S754_nan
  | S754_zero _, _ => a
  | S754_finite _ _ _, S754_infinity _ => a
  | S754_finite sa ma ea, S754_finite _ mb eb =>
      let e := Z.min ea eb in
      let r := Z.rem (Zpos (fst (shl_align ma ea e)))
                     (Zpos (fst (shl_align mb eb e))) in
      binary_normalize prec emax (cond_Zopp sa r) e sa
  end.

(** NumPy's [npy_divmod] on doubles: quotient snapped to an integral
    value and remainder with the sign of the divisor. *)
Definition npy_divmod (a b : float) : float * float :=
  let mod0 := fmod a b in
  let div0 := div (sub a mod0) b in
  let '(mod1, div1) :=
    if negb (is_zero mod0) then
      if negb (eqb (ltb b zero) (ltb mod0 zero))
      then (add mod0 b, sub div0 one)
      else (mod0, div0)
    else (copysign0 b, div0) in
  let floordiv :=
    if negb (is_zero div1) then
      let fl := floor div1 in
      if ltb half (sub div1 fl) then add fl one else fl
    else copysign0 (div a b) in
  (floordiv, mod1).

(** NumPy's [floor_divide] on doubles ([a // b] with a NumPy scalar):
    a zero divisor gives [a / b], an infinity or a NaN, not an exception. *)
Definition floor_divide (a b : float) : float :=
  if is_zero b then div a b else fst (npy_divmod a b).

(** Python's [int / int]: the correctly rounded quotient. *)
Definition int_true_divide (a b : Z) : result float :=
  if b =? 0 then Raise ZeroDivisionError else
  let s := xorb (a <? 0) (b <? 0) in
  if a =? 0 then OK (S754_zero s) else
  let '(q, e, l) := SFdiv_core_binary prec emax (Z.abs a) 0 (Z.abs b) 0 in
  match binary_round_aux prec emax s q e l with
  | S754_infinity _ => Raise OverflowError
  | x => OK x
  end.

(** Python's [int(x)] on a float. *)
Definition py_int (x : float) : result Z :=
  match x with
  | S754_nan => Raise ValueError
  | S754_infinity _ => Raise OverflowError
  | _ => OK (truncZ x)
  end.

(** Python's conversion of an [int] operand of a float operation. *)
Definition of_int (z : Z) : result float :=
  match of_Z z with
  | S754_infinity _ => Raise OverflowError
  | x => OK x
  end.

End Float64.

Import Float64.

(** ** Python sequences *)

(** A slice bound adjusted to a sequence of length [n]
    (PySlice_AdjustIndices, step 1). *)
Definition adjust (n : nat) (x : Z) : nat :=
  Z.to_nat (if x <? 0 then Z.max 0 (x + Z.of_nat n) else Z.min x (Z.of_nat n)).

(** [l[a:b]]. *)
Definition py_slice {A : Type} (l : list A) (a b : Z) : list A :=
  let start := adjust (length l) a in
  let stop := adjust (length l) b in
  take (stop - start) (drop start l).

(** Whether index [k] of a sequence of length [n] lies in the slice [a:b]. *)
Definition in_slice (n : nat) (a b : Z) (k : nat) : bool :=
  bool_decide (adjust n a <= k < adjust n b)%nat.

(** [l[a:b] = ...], elementwise: [f] applied at the indices of the slice. *)
Definition assign_slice {A : Type} (f : A -> A) (l : list A) (a b : Z) : list A :=
  imap (fun k x => if in_slice (length l) a b k then f x else x) l.

(** [l[k]] for a non-negative [k]. *)
Definition getitem {A : Type} (l : list A) (k : nat) : result A :=
  match l !! k with
  | Some x => OK x
  | None => Raise IndexError
  end.

(** [range(0, stop, step)]: [ValueError] on a zero step, empty on a
    negative one. *)
Definition py_range (stop : nat) (step : Z) : result (list Z) :=
  if step =? 0 then Raise ValueError
  else if step <? 0 then OK []
  else OK (map (fun k => Z.of_nat k * step)
               (seq 0 (Z.to_nat ((Z.of_nat stop + step - 1) / step)))).


(** ** NumPy arrays *)

Abbreviation ndarray A := (list (list A)).

(** The rank of an image array: [rank2] for the two-dimensional array of a
    single-channel image, [rank3] for the three-dimensional array of a
    colour image. *)
Inductive rank : Type :=
  | rank2
  | rank3.

(** What the array holds at row [r], column [c]: one value, or the list of
    the channel values. *)
Definition pixel (E : Type) (k : rank) : Type :=
  match k with
  | rank2 => E
  | rank3 => list E
  end.

(** The values of a pixel. *)
Definition values {E : Type} {k : rank} : pixel E k -> list E :=
  match k return pixel E k -> list E with
  | rank2 => fun x => [x]
  | rank3 => fun xs => xs
  end.

(** The pixel after the scalar [x] has been assigned to it: [x] in every
    value. *)
Definition fill {E : Type} {k : rank} (x : E) : pixel E k -> pixel E k :=
  match k return pixel E k -> pixel E k with
  | rank2 => fun _ => x
  | rank3 => fun xs => (fun _ => x) <$> xs
  end.

(** Wrap-around of the signed 64-bit accumulator. *)
Definition wrap64 (z : Z) : Z := (z + 2 ^ 63) mod 2 ^ 64 - 2 ^ 63.

(** [a[r0:r1, c0:c1]]. *)
Definition slice2 {A : Type} (a : ndarray A) (r0 r1 c0 c1 : Z) : ndarray A :=
  map (fun row => py_slice row c0 c1) (py_slice a r0 r1).

Definition sum_Z (l : list Z) : Z := foldr Z.add 0 l.

(** The sum of the values of a pixel. *)
Definition cell_sum {k : rank} (p : pixel Z k) : Z := sum_Z (values p).

(** [np.sum] of an integer array: every value of every pixel. *)
Definition np_sum {k : rank} (a : ndarray (pixel Z k)) : Z :=
  wrap64 (sum_Z (map (fun row => sum_Z (map cell_sum row)) a)).

(** [x // y] of a 64-bit integer scalar [x] by a Python integer [y]: [y] is
    converted to the type of [x], with [OverflowError] when it does not
    fit; a zero divisor yields 0. *)
Definition np_floor_divide (x y : Z) : result Z :=
  if (- 2 ^ 63 <=? y) && (y <? 2 ^ 63)
  then OK (if y =? 0 then 0 else wrap64 (x / y))
  else Raise OverflowError.

(** [a[r0:r1, c0:c1] = ...], pixel by pixel: [f] applied to the pixels of
    the slice. *)
Definition setitem2 {A : Type} (a : ndarray A) (r0 r1 c0 c1 : Z) (f : A -> A) : ndarray A :=
  assign_slice (fun row => assign_slice f row c0 c1) a r0 r1.

(** The element type of an array and the conversion applied when a Python
    float is stored in it. *)
Record dtype : Type := { elem : Type; store : float -> result elem }.

(** A Python float stored in a 64-bit integer array: [int(x)], which must
    fit the element type. *)
Definition store_int64 (x : float) : result Z :=
  do z <- py_int x;
  if (- 2 ^ 63 <=? z) && (z <? 2 ^ 63) then OK z else Raise OverflowError.

Definition float64 : dtype := {| elem := float; store := fun x => OK x |}.
Definition int64 : dtype := {| elem := Z; store := store_int64 |}.

(** ** PixelArtGenerator *)

Record PixelArtGenerator : Type := { step : Z; gradation : float }.

(** [__init__(self, gradations, pixel_step)]. *)
Definition init (gradations pixel_step : Z) : result PixelArtGenerator :=
  do g <- int_true_divide 255 gradations;
  OK {| step := pixel_step; gradation := g |}.

(** [get_pixel_color(self, img_array, i, j)], on an integer array. *)
Definition get_pixel_color {k : rank} (t : PixelArtGenerator)
    (img_array : ndarray (pixel Z k)) (i j : Z) : result Z :=
  np_floor_divide
    (np_sum (slice2 img_array i (i + step t) j (j + step t)))
    (step t ^ 2).

(** [get_pixel_color] on a float64 array, for a slice that holds the two
    values [a] and [b]: [np.sum] is their binary64 sum, whatever the order
    of the addition, and [//] is the floor division of doubles by the
    Python integer [step ** 2]. Larger float64 slices are not embedded:
    there the rounding of [np.sum] follows the order in which NumPy adds
    the values, which the source does not fix. *)
Definition get_pixel_color_float64_pair (t : PixelArtGenerator) (a b : float)
    : result float :=
  do d <- of_int (step t ^ 2);
  OK (floor_divide (add a b) d).

(** [int(s // self.gradation)]. *)
Definition level (t : PixelArtGenerator) (s : Z) : result Z :=
  py_int (floor_divide (of_Z s) (gradation t)).

(** [int(s // self.gradation) * self.gradation / 3]. *)
Definition new_value (t : PixelArtGenerator) (s : Z) : result float :=
  do l <- level t s;
  do lf <- of_int l;
  OK (div (mul lf (gradation t)) (of_Z 3)).

(** [set_pixel_color(self, img_array, i, j, s)]. *)
Definition set_pixel_color (dt : dtype) {k : rank} (t : PixelArtGenerator)
    (img_array : ndarray (pixel (elem dt) k)) (i j : Z) (s : Z)
    : result (ndarray (pixel (elem dt) k)) :=
  do v <- new_value t s;
  do x <- store dt v;
  OK (setitem2 img_array i (i + step t) j (j + step t) (fill x)).

(** The inner loop of [generate]: [for j in range(0, w, self.step)]. *)
Fixpoint generate_row {k : rank} (t : PixelArtGenerator) (img_array : ndarray (pixel Z k))
    (i : Z) (js : list Z) : result (ndarray (pixel Z k)) :=
  match js with
  | [] => OK img_array
  | j :: js' =>
      do color <- get_pixel_color t img_array i j;
      do img_array' <- set_pixel_color int64 t img_array i j color;
      generate_row t img_array' i js'
  end.

(** The outer loop of [generate]: [for i in range(0, h, self.step)]. *)
Fixpoint generate_rows {k : rank} (t : PixelArtGenerator) (img_array : ndarray (pixel Z k))
    (w : nat) (rows : list Z) : result (ndarray (pixel Z k)) :=
  match rows with
  | [] => OK img_array
  | i :: rows' =>
      do js <- py_range w (step t);
      do img_array' <- generate_row t img_array i js;
      generate_rows t img_array' w rows'
  end.

(** [generate(self, image)], on the array of the image's samples. *)
Definition generate {k : rank} (t : PixelArtGenerator) (image : ndarray (pixel Z k))
    : result (ndarray (pixel Z k)) :=
  let img_array := image in
  let h := length img_array in
  do row1 <- getitem img_array 1;
  let w := length row1 in
  do rows <- py_range h (step t);
  generate_rows t img_array w rows.

(** The script: build the generator from the command-line values, then
    run it on the image. *)
Definition main {k : rank} (gradations size : Z) (image : ndarray (pixel Z k))
    : result (ndarray (pixel Z k)) :=
  do generator <- init gradations size;
  generate generator image.

(** ** Vocabulary of the specification *)

(** The pixel at row [r], column [c], when the array has one. *)
Definition lookup2 {A : Type} (a : ndarray A) (r c : nat) : option A :=
  match a !! r with
  | Some row => row !! c
  | None => None
  end.

(** Every row has [w] pixels. *)
Definition rect {A : Type} (w : nat) (a : ndarray A) : Prop :=
  Forall (fun row => length row = w) a.

(** Every pixel has [ch] values: 1 in an array of rank 2, the number of
    channels in an array of rank 3. *)
Definition channels {E : Type} {k : rank} (ch : nat) (a : ndarray (pixel E k)) : Prop :=
  Forall (Forall (fun p => length (values p) = ch)) a.

(** Pixel [(r, c)] belongs to the region [a[i:i+st, j:j+st]]. *)
Definition in_region {A : Type} (a : ndarray A) (i j st : Z) (r c : nat) : Prop :=
  exists row, a !! r = Some row /\
    in_slice (length a) i (i + st) r = true /\
    in_slice (length row) j (j + st) c = true.

(** The same region for an origin inside the grid, in coordinates. *)
Definition inside (i j st : Z) (r c : nat) : Prop :=
  i <= Z.of_nat r < i + st /\ j <= Z.of_nat c < j + st.

(** The indices [a, a+1, ...] below both [a + st] and [n]. *)
Definition clipped (n : nat) (a st : Z) : list nat :=
  seq (Z.to_nat a) (Z.to_nat (Z.min (a + st) (Z.of_nat n) - a)).

(** The arithmetic sum of the values of the block at [(i, j)], clipped to
    an [h] by [w] grid. *)
Definition region_sum {k : rank} (h w : nat) (a : ndarray (pixel Z k)) (i j st : Z) : Z :=
  sum_Z (map (fun r =>
                sum_Z (map (fun c => default 0 (cell_sum <$> lookup2 a r c)) (clipped w j st)))
             (clipped h i st)).

(** The value is representable in the 64-bit accumulator. *)
Definition fits64 (z : Z) : Prop := - 2 ^ 63 <= z < 2 ^ 63.

(** Every value of the array is a signed 64-bit integer. *)
Definition int64_grid {k : rank} (a : ndarray (pixel Z k)) : Prop :=
  Forall (Forall (fun p => Forall fits64 (values p))) a.

(** The number is finite. *)
Definition is_finite (x : float) : bool :=
  match x with
  | S754_zero _ | S754_finite _ _ _ => true
  | _ => false
  end.

(** The numeric value of a cell, as a binary64 number. *)
Definition cell_value (z : Z) : float := of_Z z.

(** [generate] with the width read from row 0 instead of row 1. *)
Definition generate_row0 {k : rank} (t : PixelArtGenerator) (image : ndarray (pixel Z k))
    : result (ndarray (pixel Z k)) :=
  let img_array := image in
  let h := length img_array in
  do row0 <- getitem img_array 0;
  let w := length row0 in
  do rows <- py_range h (step t);
  generate_rows t img_array w rows.

(** The script with the width read from row 0. *)
Definition main_row0 {k : rank} (gradations size : Z) (image : ndarray (pixel Z k))
    : result (ndarray (pixel Z k)) :=
  do generator <- init gradations size;
  generate_row0 generator image.

(** Every value of the array is 0. *)
Definition all_zero {k : rank} (a : ndarray (pixel Z k)) : Prop :=
  Forall (Forall (fun p => Forall (eq 0) (values p))) a.

(** The gradation unit is a non-zero finite number. *)
Definition usable (g : float) : bool :=
  match g with S754_finite _ _ _ => true | _ => false end.

(** An error of the arithmetic: a division by zero or a zero range step. *)
Definition arithmetic_error (e : py_error) : Prop :=
  e = ZeroDivisionError \/ e = ValueError.

(** The generator of the docstring examples: six gradations. *)
Definition default_generator (pixel_step : Z) : PixelArtGenerator :=
  {| step := pixel_step; gradation := S754_finite false 5981343255101440 (-47) |}.

(** The lengths of the rows: the shape of the array. *)
Definition shape {A : Type} (a : ndarray A) : list nat := length <$> a.

(** All the pixels of the block at [(i, j)] hold one value. *)
Definition uniform_block {A : Type} (a : ndarray A) (i j st : Z) : Prop :=
  forall r c r' c' x y,
    inside i j st r c -> inside i j st r' c' ->
    lookup2 a r c = Some x -> lookup2 a r' c' = Some y -> x = y.

(** In [img'] every pixel of the region [img[i:i+st, j:j+st]] holds [x]
    in each of its values. *)
Definition block_filled {E : Type} {k : rank} (img img' : ndarray (pixel E k))
    (i j st : Z) (x : E) : Prop :=
  forall r c, in_region img i j st r c ->
    exists old, lookup2 img r c = Some old /\ lookup2 img' r c = Some (fill x old).

(** The body of the loops of [generate] at one origin. *)
Definition process {k : rank} (t : PixelArtGenerator) (img_array : ndarray (pixel Z k))
    (o : Z * Z) : result (ndarray (pixel Z k)) :=
  do color <- get_pixel_color t img_array (fst o) (snd o);
  set_pixel_color int64 t img_array (fst o) (snd o) color.

(** The body of the loops run over a list of origins, in order. *)
Fixpoint run_blocks {k : rank} (t : PixelArtGenerator) (img_array : ndarray (pixel Z k))
    (os : list (Z * Z)) : result (ndarray (pixel Z k)) :=
  match os with
  | [] => OK img_array
  | o :: os' => do img_array' <- process t img_array o; run_blocks t img_array' os'
  end.

(** The origins that the two loops visit, row-major. *)
Definition origins (rows js : list Z) : list (Z * Z) :=
  flat_map (fun i => map (fun j => (i, j)) js) rows.

(** An origin on the grid of blocks of side [st]. *)
Definition on_grid (st : Z) (o : Z * Z) : Prop :=
  exists a b : nat, o = (Z.of_nat a * st, Z.of_nat b * st).

(** Every value is an 8-bit sample, as in a decoded image. *)
Definition eight_bit {k : rank} (a : ndarray (pixel Z k)) : Prop :=
  Forall (Forall (fun p => Forall (fun x => 0 <= x <= 255) (values p))) a.

(** [step ** 2] fits the 64-bit integer type of the sum. *)
Definition step_fits (t : PixelArtGenerator) : Prop := step t * step t < 2 ^ 63.

(** The generator maps every brightness that an 8-bit image of [ch]
    channels can have, 0 to [255 * ch], to an 8-bit value. *)
Definition quantises (t : PixelArtGenerator) (ch : nat) : bool :=
  forallb (fun n =>
             match new_value t (Z.of_nat n) with
             | OK v =>
                 match store_int64 v with
                 | OK x => (0 <=? x) && (x <=? 255)
                 | Raise _ => false
                 end
             | Raise _ => false
             end)
          (seq 0 (S (255 * ch))).

(** The values that the generator writes for the brightnesses of an 8-bit
    image of [ch] channels. *)
Definition palette (t : PixelArtGenerator) (ch : nat) : list Z :=
  flat_map (fun n =>
              match new_value t (Z.of_nat n) with
              | OK v =>
                  match store_int64 v with
                  | OK x => [x]
                  | Raise _ => []
                  end
              | Raise _ => []
              end)
           (seq 0 (S (255 * ch))).

(** The gradation unit of [gradations] quantises the 8-bit range of a
    single-channel image. *)
Definition gradations_ok (gradations : Z) : bool :=
  match int_true_divide 255 gradations with
  | OK g => quantises {| step := 0; gradation := g |} 1
  | Raise _ => false
  end.

(** The arrays of the docstring examples and of the specification. *)
Definition docstring_grid : ndarray (pixel Z rank2) :=
  [[124; 76; 24]; [54; 54; 160]; [89; 35; 35]].

Definition ones (h w : nat) : ndarray (pixel Z rank2) := replicate h (replicate w 1).

Definition ones_float (h w : nat) : ndarray (pixel float rank2) :=
  replicate h (replicate w one).

Definition white3 : ndarray (pixel Z rank2) := replicate 3 (replicate 3 255).


Definition one_row : ndarray (pixel Z rank2) := [[10; 20; 30]].

(** A white RGB image of two rows and two columns. *)
Definition white_rgb : ndarray (pixel Z rank3) := replicate 2 (replicate 2 [255; 255; 255]).

(** A single-channel array written as the list of its rows. *)
Definition grey (a : list (list Z)) : ndarray (pixel Z rank2) := a.

(** A three-channel array written as the list of its rows of pixels. *)
Definition colour (a : list (list (list Z))) : ndarray (pixel Z rank3) := a.

(** * Proofs *)

(** ** Results *)

Lemma bind_OK {A B : Type} (m : result A) (k : A -> result B) (b : B) :
  bind m k = OK b -> exists a, m = OK a /\ k a = OK b.
Proof. destruct m as [a|e]; simpl; [eauto | discriminate]. Qed.

Ltac inv_bind H :=
  let a := fresh "x" in
  let Ha := fresh "E" in
  apply bind_OK in H; destruct H as (a & Ha & H).

(** ** Slices *)

Lemma adjust_nonneg (n : nat) (x : Z) :
  0 <= x -> adjust n x = Z.to_nat (Z.min x (Z.of_nat n)).
Proof.
  intros Hx. unfold adjust. destruct (Z.ltb_spec x 0); [lia | reflexivity].
Qed.

Lemma adjust_le (n : nat) (x : Z) : (adjust n x <= n)%nat.
Proof. unfold adjust. destruct (Z.ltb_spec x 0); lia. Qed.

Lemma in_slice_true (n : nat) (a b : Z) (k : nat) :
  in_slice n a b k = true <-> (adjust n a <= k < adjust n b)%nat.
Proof. unfold in_slice. apply bool_decide_eq_true. Qed.

Lemma in_slice_lt (n : nat) (a b : Z) (k : nat) :
  in_slice n a b k = true -> (k < n)%nat.
Proof. rewrite in_slice_true. pose proof (adjust_le n b). lia. Qed.

Lemma in_slice_nonneg (n : nat) (a st : Z) (k : nat) :
  0 <= a -> 0 <= st -> (k < n)%nat ->
  in_slice n a (a + st) k = true <-> a <= Z.of_nat k < a + st.
Proof.
  intros Ha Hst Hk. rewrite in_slice_true. rewrite adjust_nonneg by lia.
  unfold adjust. destruct (Z.ltb_spec (a + st) 0); lia.
Qed.

Lemma lookup_assign_slice {A : Type} (f : A -> A) (l : list A) (a b : Z) (k : nat) :
  assign_slice f l a b !! k =
  (fun x => if in_slice (length l) a b k then f x else x) <$> l !! k.
Proof. unfold assign_slice. apply list_lookup_imap. Qed.

Lemma length_assign_slice {A : Type} (f : A -> A) (l : list A) (a b : Z) :
  length (assign_slice f l a b) = length l.
Proof. unfold assign_slice. apply length_imap. Qed.

Lemma assign_slice_id {A : Type} (f : A -> A) (l : list A) (a b : Z) :
  (forall x, x ∈ l -> f x = x) -> assign_slice f l a b = l.
Proof.
  intros Hf. apply list_eq. intros k. rewrite lookup_assign_slice.
  destruct (l !! k) as [x|] eqn:E; simpl; [|reflexivity].
  destruct (in_slice _ _ _ _); [|reflexivity].
  rewrite Hf; [reflexivity|]. eapply list_elem_of_lookup_2; eauto.
Qed.


(** ** Pixels *)

Lemma values_fill {E : Type} {k : rank} (x : E) (p : pixel E k) :
  values (fill x p) = (fun _ => x) <$> values p.
Proof. destruct k; reflexivity. Qed.

Lemma length_values_fill {E : Type} {k : rank} (x : E) (p : pixel E k) :
  length (values (fill x p)) = length (values p).
Proof. rewrite values_fill. apply length_fmap. Qed.

Lemma values_fill_replicate {E : Type} {k : rank} (x : E) (p : pixel E k) :
  values (fill x p) = replicate (length (values p)) x.
Proof.
  rewrite values_fill. induction (values p) as [|y l IH]; simpl; [reflexivity|].
  f_equal. exact IH.
Qed.

Lemma fill_fill {E : Type} {k : rank} (x y : E) (p : pixel E k) :
  fill x (fill y p) = fill x p.
Proof.
  destruct k; simpl; [reflexivity|].
  induction p as [|z p IH]; simpl; [reflexivity|]. f_equal. exact IH.
Qed.

(** Two pixels with as many values are filled alike. *)
Lemma fill_channels {E : Type} {k : rank} (x : E) (p q : pixel E k) :
  length (values p) = length (values q) -> fill x p = fill x q.
Proof.
  destruct k; simpl; [reflexivity|].
  revert q. induction p as [|y p IH]; intros [|z q] H; simpl in *;
    try reflexivity; try discriminate.
  f_equal. apply IH. lia.
Qed.

Lemma fill_id {E : Type} {k : rank} (x : E) (p : pixel E k) :
  Forall (eq x) (values p) -> fill x p = p.
Proof.
  destruct k; simpl.
  - intros H. inversion H. congruence.
  - induction 1 as [|y l <- _ IH]; simpl; [reflexivity|]. f_equal. exact IH.
Qed.

(** ** The slice assignment of [set_pixel_color] *)

Lemma length_setitem2 {A : Type} (a : ndarray A) (r0 r1 c0 c1 : Z) (f : A -> A) :
  length (setitem2 a r0 r1 c0 c1 f) = length a.
Proof. apply length_assign_slice. Qed.

Lemma lookup_setitem2_row {A : Type} (a : ndarray A) (r0 r1 c0 c1 : Z) (f : A -> A) (r : nat) :
  setitem2 a r0 r1 c0 c1 f !! r =
  (fun row => if in_slice (length a) r0 r1 r
              then assign_slice f row c0 c1 else row) <$> a !! r.
Proof. unfold setitem2. apply lookup_assign_slice. Qed.

Lemma setitem2_row_length {A : Type} (a : ndarray A) (r0 r1 c0 c1 : Z) (f : A -> A)
    (r : nat) (row' : list A) :
  setitem2 a r0 r1 c0 c1 f !! r = Some row' ->
  exists row, a !! r = Some row /\ length row' = length row.
Proof.
  rewrite lookup_setitem2_row. destruct (a !! r) as [row|]; simpl; [|discriminate].
  intros [= <-]. exists row. split; [reflexivity|].
  destruct (in_slice _ _ _ _); [apply length_assign_slice | reflexivity].
Qed.

Lemma lookup2_setitem2_in {A : Type} (a : ndarray A) (i j st : Z) (f : A -> A) (r c : nat) :
  in_region a i j st r c ->
  lookup2 (setitem2 a i (i + st) j (j + st) f) r c = f <$> lookup2 a r c.
Proof.
  intros (row & Hrow & Hr & Hc). unfold lookup2.
  rewrite lookup_setitem2_row, Hrow. simpl. rewrite Hr.
  rewrite lookup_assign_slice, Hc. reflexivity.
Qed.

Lemma lookup2_setitem2_out {A : Type} (a : ndarray A) (i j st : Z) (f : A -> A) (r c : nat) :
  ~ in_region a i j st r c ->
  lookup2 (setitem2 a i (i + st) j (j + st) f) r c = lookup2 a r c.
Proof.
  intros Hout. unfold lookup2. rewrite lookup_setitem2_row.
  destruct (a !! r) as [row|] eqn:Hrow; simpl; [|reflexivity].
  destruct (in_slice (length a) i (i + st) r) eqn:Hr; [|reflexivity].
  rewrite lookup_assign_slice.
  destruct (in_slice (length row) j (j + st) c) eqn:Hc.
  - exfalso. apply Hout. exists row. auto.
  - destruct (row !! c); reflexivity.
Qed.

Lemma in_region_is_Some {A : Type} (a : ndarray A) (i j st : Z) (r c : nat) :
  in_region a i j st r c -> is_Some (lookup2 a r c).
Proof.
  intros (row & Hrow & _ & Hc). unfold lookup2. rewrite Hrow.
  apply lookup_lt_is_Some_2. exact (in_slice_lt _ _ _ _ Hc).
Qed.

Lemma in_region_inside {A : Type} (a : ndarray A) (i j st : Z) (r c : nat) :
  0 <= i -> 0 <= j -> 0 <= st ->
  in_region a i j st r c <-> is_Some (lookup2 a r c) /\ inside i j st r c.
Proof.
  intros Hi Hj Hst. unfold in_region, lookup2, inside. split.
  - intros (row & Hrow & Hr & Hc). rewrite Hrow.
    pose proof (in_slice_lt _ _ _ _ Hr) as Hrl.
    pose proof (in_slice_lt _ _ _ _ Hc) as Hcl.
    apply in_slice_nonneg in Hr; [|lia..].
    apply in_slice_nonneg in Hc; [|lia..].
    split; [|lia]. apply lookup_lt_is_Some_2. lia.
  - intros (Hs & Hr & Hc). destruct (a !! r) as [row|] eqn:Hrow.
    + exists row. split; [reflexivity|].
      apply lookup_lt_is_Some_1 in Hs.
      assert (r < length a)%nat by (apply lookup_lt_is_Some_1; eauto).
      split; apply in_slice_nonneg; lia.
    + destruct Hs as [? Hs]. discriminate.
Qed.

(** ** Reading a block *)

Lemma wrap64_fits (z : Z) : fits64 z -> wrap64 z = z.
Proof.
  unfold fits64, wrap64. intros Hz.
  rewrite Z.mod_small; lia.
Qed.

Lemma wrap64_range (z : Z) : fits64 (wrap64 z).
Proof.
  unfold fits64, wrap64.
  pose proof (Z.mod_pos_bound (z + 2 ^ 63) (2 ^ 64) ltac:(lia)). lia.
Qed.

Lemma fits64_div (x y : Z) : fits64 x -> 0 < y -> fits64 (x / y).
Proof.
  unfold fits64. intros Hx Hy. split.
  - apply Z.div_le_lower_bound; [assumption|]. nia.
  - apply Z.div_lt_upper_bound; [assumption|]. nia.
Qed.

(** The floor division by a positive divisor that fits the 64-bit type. *)
Lemma np_floor_divide_pos (x y : Z) :
  fits64 x -> 0 < y < 2 ^ 63 -> np_floor_divide x y = OK (x / y).
Proof.
  intros Hx Hy. unfold np_floor_divide.
  destruct (Z.leb_spec (- 2 ^ 63) y); [|lia].
  destruct (Z.ltb_spec y (2 ^ 63)); [|lia]. simpl.
  destruct (Z.eqb_spec y 0); [lia|].
  rewrite wrap64_fits; [reflexivity|]. apply fits64_div; [assumption | lia].
Qed.

Lemma np_floor_divide_big (x y : Z) :
  2 ^ 63 <= y -> np_floor_divide x y = Raise OverflowError.
Proof.
  intros Hy. unfold np_floor_divide.
  destruct (Z.ltb_spec y (2 ^ 63)); [lia|]. rewrite andb_false_r. reflexivity.
Qed.

Lemma np_floor_divide_zero (y : Z) :
  - 2 ^ 63 <= y < 2 ^ 63 -> np_floor_divide 0 y = OK 0.
Proof.
  intros Hy. unfold np_floor_divide.
  destruct (Z.leb_spec (- 2 ^ 63) y); [|lia].
  destruct (Z.ltb_spec y (2 ^ 63)); [|lia]. simpl.
  destruct (y =? 0); [reflexivity|]. rewrite Zdiv_0_l. reflexivity.
Qed.

(** A sample was returned: [step ** 2] fits the 64-bit type. *)
Lemma np_floor_divide_OK (x y q : Z) :
  np_floor_divide x y = OK q -> - 2 ^ 63 <= y < 2 ^ 63.
Proof.
  unfold np_floor_divide.
  destruct (Z.leb_spec (- 2 ^ 63) y); [|discriminate].
  destruct (Z.ltb_spec y (2 ^ 63)); [|discriminate]. lia.
Qed.

Lemma map_py_slice_clipped {A B : Type} (f : A -> B) (d : B) (l : list A) (a st : Z) :
  0 <= a -> 0 <= st ->
  map f (py_slice l a (a + st)) =
  map (fun k => default d (f <$> l !! k)) (clipped (length l) a st).
Proof.
  intros Ha Hst. unfold py_slice, clipped.
  rewrite !adjust_nonneg by lia.
  set (n := length l).
  replace (Z.to_nat (Z.min (a + st) (Z.of_nat n)) - Z.to_nat (Z.min a (Z.of_nat n)))%nat
    with (Z.to_nat (Z.min (a + st) (Z.of_nat n) - a)) by lia.
  set (m := Z.to_nat (Z.min (a + st) (Z.of_nat n) - a)).
  destruct (decide (m = 0%nat)) as [->|Hm]; [reflexivity|].
  replace (Z.to_nat (Z.min a (Z.of_nat n))) with (Z.to_nat a) by lia.
  apply list_eq. intros x.
  rewrite !list_lookup_fmap.
  destruct (decide (x < m)%nat) as [Hx|Hx].
  - rewrite lookup_take_lt, lookup_drop, lookup_seq_lt by lia. simpl.
    destruct (lookup_lt_is_Some_2 l (Z.to_nat a + x)) as [y ->]; [|reflexivity].
    subst n m. lia.
  - rewrite lookup_take_ge, lookup_seq_ge by lia. reflexivity.
Qed.

Lemma clipped_lt (n : nat) (a st : Z) (k : nat) :
  0 <= a -> k ∈ clipped n a st -> (k < n)%nat /\ a <= Z.of_nat k < a + st.
Proof.
  intros Ha. unfold clipped. rewrite elem_of_seq. lia.
Qed.

Lemma map_ext_elem {A B : Type} (f g : A -> B) (l : list A) :
  (forall x, x ∈ l -> f x = g x) -> map f l = map g l.
Proof.
  intros H. apply map_ext_in. intros x Hx. apply H. apply list_elem_of_In, Hx.
Qed.

(** The sum that [np.sum] accumulates over the slice is the sum over the
    clipped block. *)
Lemma np_sum_region {k : rank} (img : ndarray (pixel Z k)) (w : nat) (i j st : Z) :
  rect w img -> 0 <= i -> 0 <= j -> 0 <= st ->
  np_sum (slice2 img i (i + st) j (j + st)) = wrap64 (region_sum (length img) w img i j st).
Proof.
  intros Hrect Hi Hj Hst. unfold np_sum, slice2, region_sum.
  do 2 f_equal. rewrite map_map.
  rewrite (map_py_slice_clipped
             (fun row => sum_Z (map cell_sum (py_slice row j (j + st)))) 0 img)
    by assumption.
  apply map_ext_elem. intros r Hr.
  apply clipped_lt in Hr as [Hr _]; [|assumption].
  unfold lookup2.
  destruct (lookup_lt_is_Some_2 img r Hr) as [row Hrow]. rewrite Hrow. simpl.
  assert (length row = w) as <-.
  { unfold rect in Hrect. rewrite Forall_forall in Hrect. apply Hrect.
    eapply list_elem_of_lookup_2; eauto. }
  rewrite (map_py_slice_clipped cell_sum 0 row) by assumption. reflexivity.
Qed.

(** [get_pixel_color] is the wrapped sum of the clipped block over the
    square of the step. *)
Lemma get_pixel_color_region {k : rank} (t : PixelArtGenerator) (img : ndarray (pixel Z k))
    (w : nat) (i j : Z) :
  rect w img -> 0 <= i -> 0 <= j -> 0 <= step t ->
  get_pixel_color t img i j =
  np_floor_divide (wrap64 (region_sum (length img) w img i j (step t))) (step t ^ 2).
Proof.
  intros Hrect Hi Hj Hst. unfold get_pixel_color.
  rewrite (np_sum_region img w) by assumption. reflexivity.
Qed.

Lemma get_pixel_color_step {k : rank} (t : PixelArtGenerator) (img : ndarray (pixel Z k))
    (i j b : Z) :
  get_pixel_color t img i j = OK b -> step_fits t.
Proof.
  unfold get_pixel_color, step_fits. intros H. apply np_floor_divide_OK in H.
  rewrite Z.pow_2_r in H. lia.
Qed.





(** ** The loops of [generate] as one pass over the origins *)

Lemma run_blocks_app {k : rank} (t : PixelArtGenerator) (img : ndarray (pixel Z k))
    (os1 os2 : list (Z * Z)) :
  run_blocks t img (os1 ++ os2) = do img' <- run_blocks t img os1; run_blocks t img' os2.
Proof.
  revert img. induction os1 as [|o os1 IH]; intros img; simpl; [reflexivity|].
  destruct (process t img o) as [img1|e]; simpl; [apply IH | reflexivity].
Qed.

Lemma generate_row_run {k : rank} (t : PixelArtGenerator) (img : ndarray (pixel Z k))
    (i : Z) (js : list Z) :
  generate_row t img i js = run_blocks t img (map (fun j => (i, j)) js).
Proof.
  revert img. induction js as [|j js IH]; intros img; simpl; [reflexivity|].
  unfold process at 1. simpl.
  destruct (get_pixel_color t img i j) as [color|e]; simpl; [|reflexivity].
  destruct (set_pixel_color int64 t img i j color) as [img1|e]; simpl;
    [apply IH | reflexivity].
Qed.

Lemma generate_rows_run {k : rank} (t : PixelArtGenerator) (img : ndarray (pixel Z k))
    (w : nat) (rows js : list Z) :
  py_range w (step t) = OK js ->
  generate_rows t img w rows = run_blocks t img (origins rows js).
Proof.
  intros Hjs. revert img. induction rows as [|i rows IH]; intros img; simpl; [reflexivity|].
  rewrite Hjs. simpl. unfold origins in *. simpl.
  rewrite run_blocks_app, generate_row_run.
  destruct (run_blocks t img _) as [img1|e]; simpl; [apply IH | reflexivity].
Qed.

Lemma py_range_pos (n : nat) (st : Z) :
  0 < st ->
  py_range n st =
  OK (map (fun k => Z.of_nat k * st) (seq 0 (Z.to_nat ((Z.of_nat n + st - 1) / st)))).
Proof.
  intros Hst. unfold py_range.
  destruct (Z.eqb_spec st 0); [lia|]. destruct (Z.ltb_spec st 0); [lia|]. reflexivity.
Qed.

Lemma py_range_neg (n : nat) (st : Z) : st < 0 -> py_range n st = OK [].
Proof.
  intros Hst. unfold py_range.
  destruct (Z.eqb_spec st 0); [lia|]. destruct (Z.ltb_spec st 0); [reflexivity|lia].
Qed.

(** The multiples of the step below [n] are the members of the range. *)
Lemma elem_of_py_range (n : nat) (st : Z) (l : list Z) (x : Z) :
  0 < st -> py_range n st = OK l ->
  x ∈ l <-> exists k : nat, x = Z.of_nat k * st /\ x < Z.of_nat n.
Proof.
  intros Hst. rewrite py_range_pos by assumption. intros [= <-].
  rewrite list_elem_of_fmap. setoid_rewrite elem_of_seq.
  assert (forall k : nat,
    (k < Z.to_nat ((Z.of_nat n + st - 1) / st))%nat <-> Z.of_nat k * st < Z.of_nat n) as Hk.
  { intros k. pose proof (Z.div_pos (Z.of_nat n + st - 1) st ltac:(lia) Hst).
    rewrite Nat2Z.inj_lt, Z2Nat.id by assumption. split; intros H'.
    - pose proof (Z.mul_div_le (Z.of_nat n + st - 1) st Hst). nia.
    - assert (Z.of_nat k + 1 <= (Z.of_nat n + st - 1) / st); [|lia].
      apply Z.div_le_lower_bound; lia. }
  split.
  - intros (k & -> & Hk'). exists k. split; [reflexivity|]. apply Hk. lia.
  - intros (k & -> & Hk'). exists k. split; [reflexivity|]. apply Hk in Hk'. lia.
Qed.

Lemma elem_of_origins (rows js : list Z) (i j : Z) :
  (i, j) ∈ origins rows js <-> i ∈ rows /\ j ∈ js.
Proof.
  unfold origins. rewrite list_elem_of_In, in_flat_map. split.
  - intros (i' & Hi & Hj). apply in_map_iff in Hj as (j' & [= <- <-] & Hj).
    split; apply list_elem_of_In; assumption.
  - intros [Hi Hj]. exists i. split; [apply list_elem_of_In, Hi|].
    apply in_map_iff. exists j. split; [reflexivity | apply list_elem_of_In, Hj].
Qed.

(** ** One block *)

Lemma shape_setitem2 {A : Type} (a : ndarray A) (r0 r1 c0 c1 : Z) (f : A -> A) :
  shape (setitem2 a r0 r1 c0 c1 f) = shape a.
Proof.
  unfold shape. apply list_eq. intros k.
  rewrite !list_lookup_fmap, lookup_setitem2_row.
  destruct (a !! k) as [row|]; simpl; [|reflexivity].
  destruct (in_slice _ _ _ _); [|reflexivity].
  rewrite length_assign_slice. reflexivity.
Qed.

Lemma shape_lookup2 {A B : Type} (a : ndarray A) (b : ndarray B) (r c : nat) :
  shape a = shape b -> is_Some (lookup2 a r c) -> is_Some (lookup2 b r c).
Proof.
  unfold shape, lookup2. intros Hs Ha.
  assert (length <$> a !! r = length <$> b !! r) as Hr.
  { rewrite <- !list_lookup_fmap. f_equal. exact Hs. }
  destruct (a !! r) as [ra|]; [|destruct Ha; discriminate].
  destruct (b !! r) as [rb|]; [|discriminate].
  simpl in Hr. injection Hr as Hr.
  apply lookup_lt_is_Some. rewrite <- Hr. apply lookup_lt_is_Some. exact Ha.
Qed.

Lemma shape_length {A B : Type} (a : ndarray A) (b : ndarray B) :
  shape a = shape b -> length a = length b.
Proof. unfold shape. intros H. apply (f_equal length) in H. rewrite !length_fmap in H. exact H. Qed.

Lemma set_pixel_color_OK (dt : dtype) {k : rank} (t : PixelArtGenerator)
    (img : ndarray (pixel (elem dt) k)) (i j s : Z) (img' : ndarray (pixel (elem dt) k)) :
  set_pixel_color dt t img i j s = OK img' ->
  exists v x, new_value t s = OK v /\ store dt v = OK x /\
    img' = setitem2 img i (i + step t) j (j + step t) (fill x).
Proof.
  unfold set_pixel_color. intros H. inv_bind H. inv_bind H. injection H as <-. eauto.
Qed.

Lemma process_OK {k : rank} (t : PixelArtGenerator) (img img' : ndarray (pixel Z k))
    (o : Z * Z) :
  process t img o = OK img' ->
  exists b v x,
    get_pixel_color t img (fst o) (snd o) = OK b /\
    new_value t b = OK v /\ store_int64 v = OK x /\
    img' = setitem2 img (fst o) (fst o + step t) (snd o) (snd o + step t) (fill x).
Proof.
  unfold process. intros H. inv_bind H.
  apply (set_pixel_color_OK int64) in H as (v & y & Hv & Hy & ->).
  exists x, v, y. auto.
Qed.

Lemma process_shape {k : rank} (t : PixelArtGenerator) (img img' : ndarray (pixel Z k))
    (o : Z * Z) :
  process t img o = OK img' -> shape img' = shape img.
Proof.
  intros H. apply process_OK in H as (b & v & x & _ & _ & _ & ->). apply shape_setitem2.
Qed.

Lemma process_out {k : rank} (t : PixelArtGenerator) (img img' : ndarray (pixel Z k))
    (o : Z * Z) (r c : nat) :
  0 <= fst o -> 0 <= snd o -> 0 <= step t ->
  process t img o = OK img' ->
  ~ inside (fst o) (snd o) (step t) r c ->
  lookup2 img' r c = lookup2 img r c.
Proof.
  intros Hi Hj Hst H Hout. apply process_OK in H as (b & v & x & _ & _ & _ & ->).
  apply lookup2_setitem2_out. rewrite in_region_inside by assumption. tauto.
Qed.

(** ** Many blocks *)

Lemma on_grid_nonneg (st : Z) (o : Z * Z) :
  0 <= st -> on_grid st o -> 0 <= fst o /\ 0 <= snd o.
Proof. intros Hst (a & b & ->). simpl. nia. Qed.

(** A cell lies in one block of the grid of blocks only. *)
Lemma on_grid_disjoint (st : Z) (o o' : Z * Z) (r c : nat) :
  0 < st -> on_grid st o -> on_grid st o' ->
  inside (fst o) (snd o) st r c -> inside (fst o') (snd o') st r c -> o = o'.
Proof.
  intros Hst (a & b & ->) (a' & b' & ->). unfold inside. simpl. intros [Hr Hc] [Hr' Hc'].
  assert (a = a') as -> by nia. assert (b = b') as -> by nia. reflexivity.
Qed.

Lemma run_blocks_shape {k : rank} (t : PixelArtGenerator) (os : list (Z * Z))
    (img img' : ndarray (pixel Z k)) :
  run_blocks t img os = OK img' -> shape img' = shape img.
Proof.
  revert img. induction os as [|o os IH]; intros img H; simpl in H.
  - injection H as <-. reflexivity.
  - inv_bind H. rewrite (IH _ H). eapply process_shape; eauto.
Qed.

Lemma run_blocks_frame {k : rank} (t : PixelArtGenerator) (os : list (Z * Z))
    (img img' : ndarray (pixel Z k)) (r c : nat) :
  0 <= step t -> Forall (on_grid (step t)) os ->
  run_blocks t img os = OK img' ->
  (forall o, o ∈ os -> ~ inside (fst o) (snd o) (step t) r c) ->
  lookup2 img' r c = lookup2 img r c.
Proof.
  intros Hst Hos. revert img. induction Hos as [|o os Ho Hos IH]; intros img H Hout; simpl in H.
  - injection H as <-. reflexivity.
  - inv_bind H. destruct (on_grid_nonneg _ _ Hst Ho) as [Hi Hj].
    rewrite (IH _ H) by (intros o' Ho'; apply Hout; right; exact Ho').
    eapply process_out; eauto. apply Hout. left.
Qed.

(** A pass that visits a block has sampled it: [step ** 2] fits. *)
Lemma run_blocks_step {k : rank} (t : PixelArtGenerator) (os : list (Z * Z))
    (img img' : ndarray (pixel Z k)) :
  run_blocks t img os = OK img' -> os <> [] -> step_fits t.
Proof.
  destruct os as [|o os]; [congruence|]. simpl. intros H _. inv_bind H.
  apply process_OK in E as (b & _ & _ & Hb & _). eapply get_pixel_color_step; eauto.
Qed.

(** ** The quotient [255 / gradations] never overflows *)

Lemma Zdigits2_log2 (x : Z) : 0 < x -> Zdigits2 x = Z.log2 x + 1.
Proof.
  destruct x as [|p|p]; try lia. intros _. simpl.
  assert (forall q, digits2_pos q = Pos.size q) as Hs.
  { induction q; simpl; congruence. }
  rewrite Hs. destruct p; simpl; lia.
Qed.

Lemma Zdigits2_nonneg (x : Z) : 0 <= Zdigits2 x.
Proof. destruct x; simpl; lia. Qed.

Lemma Zdigits2_le (x y : Z) : 0 <= x <= y -> Zdigits2 x <= Zdigits2 y.
Proof.
  intros [Hx Hxy]. destruct (Z.eq_dec x 0) as [->|Hx0]; [apply Zdigits2_nonneg|].
  rewrite !Zdigits2_log2 by lia. pose proof (Z.log2_le_mono x y Hxy). lia.
Qed.

Lemma Zdigits2_succ (x : Z) : 0 <= x -> Zdigits2 (x + 1) <= Zdigits2 x + 1.
Proof.
  intros Hx. destruct (Z.eq_dec x 0) as [->|Hx0]; [simpl; lia|].
  rewrite !Zdigits2_log2 by lia. pose proof (Z.log2_succ_le x). unfold Z.succ in *. lia.
Qed.

Lemma Zdigits2_shiftl (x n : Z) : 0 < x -> 0 <= n -> Zdigits2 (Z.shiftl x n) = Zdigits2 x + n.
Proof.
  intros Hx Hn. rewrite !Zdigits2_log2; [|lia|].
  - rewrite Z.log2_shiftl by lia. lia.
  - rewrite Z.shiftl_mul_pow2 by lia. pose proof (Z.pow_pos_nonneg 2 n). nia.
Qed.

Lemma Zdigits2_shiftr (x n : Z) : 0 <= x -> 0 <= n -> Zdigits2 (Z.shiftr x n) <= Z.max 0 (Zdigits2 x - n).
Proof.
  intros Hx Hn. destruct (Z.eq_dec x 0) as [->|Hx0].
  { rewrite Z.shiftr_0_l. simpl. lia. }
  destruct (Z.eq_dec (Z.shiftr x n) 0) as [->|H0]; [simpl; lia|].
  assert (0 <= Z.shiftr x n) by (apply Z.shiftr_nonneg; lia).
  rewrite !Zdigits2_log2 by lia. rewrite Z.log2_shiftr by lia. 
  assert (n <= Z.log2 x); [|lia].
  destruct (Z.le_gt_cases n (Z.log2 x)) as [|Hgt]; [assumption|].
  exfalso. apply H0. apply Z.shiftr_eq_0; lia.
Qed.

Lemma shr_1_m (mrs : shr_record) : 0 <= shr_m mrs -> shr_m (shr_1 mrs) = Z.shiftr (shr_m mrs) 1.
Proof.
  destruct mrs as [m r s]. simpl. intros Hm.
  rewrite Z.shiftr_div_pow2 by lia. change (2 ^ 1) with 2.
  destruct m as [|[p|p|]|p]; try lia; try reflexivity; cbn [shr_m].
  - rewrite Pos2Z.inj_xI. apply (Z.div_unique_pos _ 2 _ 1); lia.
  - rewrite Pos2Z.inj_xO. apply (Z.div_unique_pos _ 2 _ 0); lia.
Qed.

Lemma iter_shr_1_m (p : positive) (mrs : shr_record) :
  0 <= shr_m mrs -> shr_m (SpecFloat.iter_pos shr_1 p mrs) = Z.shiftr (shr_m mrs) (Zpos p).
Proof.
  revert mrs. induction p as [p IH|p IH|]; intros mrs Hm; simpl.
  - assert (0 <= shr_m (shr_1 mrs)) by (rewrite shr_1_m by lia; apply Z.shiftr_nonneg; lia).
    assert (0 <= shr_m (SpecFloat.iter_pos shr_1 p (shr_1 mrs))) by (rewrite IH by lia; apply Z.shiftr_nonneg; lia).
    rewrite !IH, shr_1_m by lia. rewrite !Z.shiftr_shiftr by lia. f_equal. lia.
  - assert (0 <= shr_m (SpecFloat.iter_pos shr_1 p mrs)) by (rewrite IH by lia; apply Z.shiftr_nonneg; lia).
    rewrite !IH by lia. rewrite !Z.shiftr_shiftr by lia. f_equal. lia.
  - apply shr_1_m. exact Hm.
Qed.

Lemma shr_record_of_loc_m (m : Z) (l : location) : shr_m (shr_record_of_loc m l) = m.
Proof. destruct l as [|[]]; reflexivity. Qed.

Lemma fexp_64 (x : Z) : fexp 53 1024 x = Z.max (x - 53) (-1074).
Proof. reflexivity. Qed.

Lemma shr_fexp_bound (m e : Z) (l : location) :
  0 <= m ->
  0 <= shr_m (fst (shr_fexp 53 1024 m e l)) /\
  snd (shr_fexp 53 1024 m e l) = Z.max e (fexp 53 1024 (Zdigits2 m + e)) /\
  Zdigits2 (shr_m (fst (shr_fexp 53 1024 m e l))) + snd (shr_fexp 53 1024 m e l)
    <= Z.max (snd (shr_fexp 53 1024 m e l)) (Zdigits2 m + e).
Proof.
  intros Hm. unfold shr_fexp, shr.
  destruct (fexp 53 1024 (Zdigits2 m + e) - e) as [|p|p] eqn:En; cbn [fst snd].
  - rewrite shr_record_of_loc_m. lia.
  - rewrite iter_shr_1_m by (rewrite shr_record_of_loc_m; exact Hm).
    rewrite shr_record_of_loc_m.
    pose proof (Zdigits2_shiftr m (Zpos p) Hm ltac:(lia)).
    split; [apply Z.shiftr_nonneg; exact Hm|]. lia.
  - rewrite shr_record_of_loc_m. lia.
Qed.

Lemma round_nearest_even_bound (m : Z) (l : location) :
  0 <= m -> 0 <= round_nearest_even m l <= m + 1.
Proof.
  intros Hm. destruct l as [|[]]; simpl; try lia. destruct (Z.even m); lia.
Qed.

Lemma binary_round_aux_no_overflow (s : bool) (m e : Z) (l : location) :
  0 <= m -> e <= 900 -> Zdigits2 m + e <= 1000 ->
  forall s', binary_round_aux 53 1024 s m e l <> S754_infinity s'.
Proof.
  intros Hm He Hd s'. unfold binary_round_aux.
  destruct (shr_fexp_bound m e l Hm) as (Hm1 & He1 & Hd1).
  destruct (shr_fexp 53 1024 m e l) as [mrs1 e1]. cbn [fst snd] in *.
  set (m2 := round_nearest_even (shr_m mrs1) (loc_of_shr_record mrs1)).
  pose proof (round_nearest_even_bound (shr_m mrs1) (loc_of_shr_record mrs1) Hm1) as Hm2.
  fold m2 in Hm2.
  destruct (shr_fexp_bound m2 e1 loc_Exact (proj1 Hm2)) as (_ & He2 & _).
  destruct (shr_fexp 53 1024 m2 e1 loc_Exact) as [mrs2 e2]. cbn [fst snd] in *.
  destruct (shr_m mrs2); try discriminate.
  destruct (Z.leb_spec e2 (1024 - 53)); [discriminate|]. exfalso.
  rewrite fexp_64 in He1, He2.
  pose proof (Zdigits2_le m2 (shr_m mrs1 + 1) ltac:(lia)).
  pose proof (Zdigits2_succ (shr_m mrs1) Hm1).
  lia.
Qed.

Lemma div_core_255 (b : Z) :
  0 < b ->
  let '(q, e, l) := SFdiv_core_binary 53 1024 255 0 b 0 in
  0 <= q /\ e <= 0 /\ Zdigits2 q + e <= 8.
Proof.
  intros Hb. unfold SFdiv_core_binary.
  change (Zdigits2 255) with 8.
  set (e' := Z.min (fexp 53 1024 (8 + 0 - (Zdigits2 b + 0))) (0 - 0)).
  assert (e' <= 0) as He' by (subst e'; lia).
  set (m' := match 0 - 0 - e' with Z.pos _ => Z.shiftl 255 (0 - 0 - e') | 0 => 255 | Z.neg _ => 0 end).
  assert (0 <= m' /\ Zdigits2 m' + e' <= 8) as [Hm' Hd'].
  { subst m'. destruct (0 - 0 - e') as [|p|p] eqn:Es.
    - change (Zdigits2 255) with 8. lia.
    - rewrite Zdigits2_shiftl by lia. change (Zdigits2 255) with 8.
      split; [apply Z.shiftl_nonneg|]; lia.
    - simpl. lia. }
  destruct (Z.div_eucl m' b) as [q r] eqn:E.
  assert (q = m' / b) as -> by (unfold Z.div; rewrite E; reflexivity).
  pose proof (Z.div_pos m' b Hm' Hb).
  assert (m' / b <= m') by (apply Z.div_le_upper_bound; nia).
  pose proof (Zdigits2_le (m' / b) m' ltac:(lia)).
  lia.
Qed.

Lemma int_true_divide_255 (b : Z) : b <> 0 -> exists x, int_true_divide 255 b = OK x.
Proof.
  intros Hb. unfold int_true_divide.
  destruct (Z.eqb_spec b 0) as [|_]; [contradiction|].
  change (255 =? 0) with false. cbv iota. change (Z.abs 255) with 255.
  unfold prec, emax.
  pose proof (div_core_255 (Z.abs b) ltac:(lia)) as H.
  destruct (SFdiv_core_binary 53 1024 255 0 (Z.abs b) 0) as [[q e] l].
  destruct H as (Hq & He & Hd).
  pose proof (binary_round_aux_no_overflow (xorb (255 <? 0) (b <? 0)) q e l
                Hq ltac:(lia) ltac:(lia)) as Hno.
  destruct (binary_round_aux 53 1024 _ q e l) as [s|s| |s m e'] eqn:E; eauto.
  exfalso. apply (Hno s). reflexivity.
Qed.

Lemma init_OK (gradations pixel_step : Z) :
  gradations <> 0 ->
  exists g, init gradations pixel_step = OK {| step := pixel_step; gradation := g |}.
Proof.
  intros Hg. unfold init. destruct (int_true_divide_255 gradations Hg) as [x ->].
  simpl. eauto.
Qed.

(** ** The whole pass *)

Lemma py_range_OK (n : nat) (st : Z) : st <> 0 -> exists l, py_range n st = OK l.
Proof.
  intros Hst. unfold py_range. destruct (Z.eqb_spec st 0); [contradiction|].
  destruct (st <? 0); eauto.
Qed.

Lemma py_range_step (n : nat) (st : Z) (l : list Z) : py_range n st = OK l -> st <> 0.
Proof. unfold py_range. destruct (Z.eqb_spec st 0); [discriminate | auto]. Qed.

Lemma generate_OK {k : rank} (t : PixelArtGenerator) (img img' : ndarray (pixel Z k)) :
  generate t img = OK img' ->
  exists row1 rows js,
    img !! 1%nat = Some row1 /\
    py_range (length img) (step t) = OK rows /\
    py_range (length row1) (step t) = OK js /\
    run_blocks t img (origins rows js) = OK img'.
Proof.
  unfold generate, getitem. intros H.
  destruct (img !! 1%nat) as [row1|] eqn:Hrow1; [|discriminate]. simpl in H.
  destruct (py_range (length img) (step t)) as [rows|] eqn:Hrows; [|discriminate].
  simpl in H.
  destruct (py_range_OK (length row1) (step t) (py_range_step _ _ _ Hrows)) as [js Hjs].
  exists row1, rows, js. rewrite (generate_rows_run _ _ _ _ _ Hjs) in H. auto.
Qed.

Lemma generate_run {k : rank} (t : PixelArtGenerator) (img : ndarray (pixel Z k))
    (row1 : list (pixel Z k)) (rows js : list Z) :
  img !! 1%nat = Some row1 ->
  py_range (length img) (step t) = OK rows ->
  py_range (length row1) (step t) = OK js ->
  generate t img = run_blocks t img (origins rows js).
Proof.
  intros Hrow1 Hrows Hjs. unfold generate, getitem. rewrite Hrow1. simpl.
  rewrite Hrows. simpl. apply generate_rows_run. exact Hjs.
Qed.

Lemma generate_shape {k : rank} (t : PixelArtGenerator) (img img' : ndarray (pixel Z k)) :
  generate t img = OK img' -> shape img' = shape img.
Proof.
  intros H. apply generate_OK in H as (row1 & rows & js & _ & _ & _ & H).
  eapply run_blocks_shape; eauto.
Qed.

Lemma lookup2_rect {A : Type} (a : ndarray A) (w : nat) (r c : nat) (x : A) :
  rect w a -> lookup2 a r c = Some x -> (r < length a)%nat /\ (c < w)%nat.
Proof.
  unfold rect, lookup2. rewrite Forall_forall. intros Hrect H.
  destruct (a !! r) as [row|] eqn:Hrow; [|discriminate].
  split; [apply lookup_lt_is_Some; eauto|].
  rewrite <- (Hrect row) by (eapply list_elem_of_lookup_2; eauto).
  apply lookup_lt_is_Some; eauto.
Qed.

Lemma rect_shape {A B : Type} (a : ndarray A) (b : ndarray B) (w : nat) :
  shape a = shape b -> rect w a -> rect w b.
Proof.
  unfold rect, shape. intros Hs Ha.
  apply (Forall_fmap length (fun n => n = w)).
  rewrite <- Hs. apply (Forall_fmap length (fun n => n = w)). exact Ha.
Qed.

Lemma origins_on_grid (h w : nat) (st : Z) (rows js : list Z) :
  0 < st -> py_range h st = OK rows -> py_range w st = OK js ->
  Forall (on_grid st) (origins rows js).
Proof.
  intros Hst Hrows Hjs. apply Forall_forall. intros [i j] Hij.
  apply elem_of_origins in Hij as [Hi Hj].
  apply (elem_of_py_range h st rows i Hst Hrows) in Hi as (a & -> & _).
  apply (elem_of_py_range w st js j Hst Hjs) in Hj as (b & -> & _).
  exists a, b. reflexivity.
Qed.

(** ** The all-zero grid *)

Lemma sum_Z_zero (l : list Z) : Forall (eq 0) l -> sum_Z l = 0.
Proof. induction 1 as [|x l <- _ IH]; [reflexivity|]. simpl. exact IH. Qed.

Lemma Forall_py_slice {A : Type} (P : A -> Prop) (l : list A) (a b : Z) :
  Forall P l -> Forall P (py_slice l a b).
Proof. intros H. unfold py_slice. apply Forall_take, Forall_drop, H. Qed.

Lemma get_pixel_color_zero {k : rank} (t : PixelArtGenerator) (z : ndarray (pixel Z k))
    (i j : Z) :
  all_zero z -> step_fits t -> get_pixel_color t z i j = OK 0.
Proof.
  intros Hz Hst. unfold get_pixel_color, np_sum, slice2.
  rewrite sum_Z_zero.
  - apply np_floor_divide_zero. unfold step_fits in Hst. rewrite Z.pow_2_r. nia.
  - rewrite map_map. apply Forall_fmap.
    eapply Forall_impl; [apply Forall_py_slice, Hz|].
    intros row Hrow. simpl. symmetry. apply sum_Z_zero.
    apply Forall_fmap. eapply Forall_impl; [apply Forall_py_slice, Hrow|].
    intros p Hp. simpl. symmetry. apply sum_Z_zero, Hp.
Qed.

Lemma new_value_zero (t : PixelArtGenerator) :
  usable (gradation t) = true ->
  exists v, new_value t 0 = OK v /\ store_int64 v = OK 0.
Proof.
  unfold new_value, level. destruct (gradation t) as [| | |s m e]; try discriminate.
  intros _. eexists. split; reflexivity.
Qed.

Lemma setitem2_zero {k : rank} (z : ndarray (pixel Z k)) (r0 r1 c0 c1 : Z) :
  all_zero z -> setitem2 z r0 r1 c0 c1 (fill 0) = z.
Proof.
  intros Hz. unfold setitem2. apply assign_slice_id. intros row Hrow.
  apply assign_slice_id. intros p Hp. apply fill_id.
  unfold all_zero in Hz. rewrite Forall_forall in Hz.
  specialize (Hz row Hrow). rewrite Forall_forall in Hz. apply Hz, Hp.
Qed.

Lemma process_zero {k : rank} (t : PixelArtGenerator) (z : ndarray (pixel Z k)) (o : Z * Z) :
  usable (gradation t) = true -> step_fits t -> all_zero z -> process t z o = OK z.
Proof.
  intros Hg Hst Hz. unfold process, set_pixel_color.
  rewrite get_pixel_color_zero by assumption. simpl.
  destruct (new_value_zero t Hg) as (v & -> & Hv). simpl. rewrite Hv. simpl.
  rewrite setitem2_zero by assumption. reflexivity.
Qed.

Lemma run_blocks_zero {k : rank} (t : PixelArtGenerator) (z : ndarray (pixel Z k))
    (os : list (Z * Z)) :
  usable (gradation t) = true -> (os <> [] -> step_fits t) -> all_zero z ->
  run_blocks t z os = OK z.
Proof.
  intros Hg Hst Hz. induction os as [|o os IH]; simpl; [reflexivity|].
  assert (step_fits t) as Hfits by (apply Hst; discriminate).
  rewrite process_zero by assumption. simpl. apply IH. intros _. exact Hfits.
Qed.

(** ** 8-bit images: the pass runs to its end *)

Lemma sum_Z_bounds {A : Type} (l : list A) (f : A -> Z) (M : Z) :
  (forall x, x ∈ l -> 0 <= f x <= M) ->
  0 <= sum_Z (map f l) <= Z.of_nat (length l) * M.
Proof.
  induction l as [|x l IH]; intros H; [simpl; lia|].
  cbn [map sum_Z foldr length]. fold (sum_Z (map f l)).
  pose proof (H x ltac:(left)).
  pose proof (IH ltac:(intros y Hy; apply H; right; exact Hy)).
  lia.
Qed.

Lemma length_clipped (n : nat) (a st : Z) :
  0 <= a -> 0 <= st ->
  Z.of_nat (length (clipped n a st)) <= st /\
  Z.of_nat (length (clipped n a st)) <= Z.of_nat n.
Proof. intros. unfold clipped. rewrite length_seq. lia. Qed.

Lemma cell_sum_eight_bit {k : rank} (p : pixel Z k) (ch : nat) :
  Forall (fun x => 0 <= x <= 255) (values p) -> length (values p) = ch ->
  0 <= cell_sum p <= Z.of_nat ch * 255.
Proof.
  intros H8 <-. unfold cell_sum. rewrite <- (map_id (values p)) at 1 2.
  apply sum_Z_bounds. intros x Hx. rewrite Forall_forall in H8. apply H8, Hx.
Qed.

Lemma eight_bit_lookup2 {k : rank} (img : ndarray (pixel Z k)) (ch : nat) (r c : nat) :
  eight_bit img -> channels ch img ->
  0 <= default 0 (cell_sum <$> lookup2 img r c) <= Z.of_nat ch * 255.
Proof.
  unfold eight_bit, channels, lookup2. intros H Hch.
  destruct (img !! r) as [row|] eqn:Hrow; [|simpl; lia].
  destruct (row !! c) as [p|] eqn:Hp; [|simpl; lia]. simpl.
  rewrite Forall_forall in H. specialize (H row (list_elem_of_lookup_2 _ _ _ Hrow)).
  rewrite Forall_forall in H. specialize (H p (list_elem_of_lookup_2 _ _ _ Hp)).
  rewrite Forall_forall in Hch. specialize (Hch row (list_elem_of_lookup_2 _ _ _ Hrow)).
  rewrite Forall_forall in Hch. specialize (Hch p (list_elem_of_lookup_2 _ _ _ Hp)).
  apply cell_sum_eight_bit; assumption.
Qed.

Lemma region_sum_eight_bit {k : rank} (img : ndarray (pixel Z k)) (h w ch : nat)
    (i j st : Z) :
  eight_bit img -> channels ch img -> 0 <= i -> 0 <= j -> 0 <= st ->
  0 <= region_sum h w img i j st /\
  region_sum h w img i j st <= st * st * (Z.of_nat ch * 255) /\
  region_sum h w img i j st <= Z.of_nat h * Z.of_nat w * (Z.of_nat ch * 255).
Proof.
  intros H8 Hch Hi Hj Hst. unfold region_sum.
  pose proof (length_clipped h i st Hi Hst) as [Hr1 Hr2].
  pose proof (length_clipped w j st Hj Hst) as [Hc1 Hc2].
  set (rows := clipped h i st) in *. set (cols := clipped w j st) in *.
  pose proof (sum_Z_bounds rows
    (fun r => sum_Z (map (fun c => default 0 (cell_sum <$> lookup2 img r c)) cols))
    (Z.of_nat (length cols) * (Z.of_nat ch * 255))) as Hsum.
  destruct Hsum as [Hlo Hhi].
  { intros r _. apply sum_Z_bounds. intros c _. apply eight_bit_lookup2; assumption. }
  set (C := Z.of_nat ch * 255) in *. assert (0 <= C) by (subst C; lia).
  set (nr := Z.of_nat (length rows)) in *. set (nc := Z.of_nat (length cols)) in *.
  assert (0 <= nr) by (subst nr; lia). assert (0 <= nc) by (subst nc; lia).
  assert (nr * (nc * C) <= st * (st * C)).
  { assert (nc * C <= st * C) by nia. assert (0 <= nc * C) by nia. nia. }
  assert (nr * (nc * C) <= Z.of_nat h * (Z.of_nat w * C)).
  { assert (nc * C <= Z.of_nat w * C) by nia. assert (0 <= nc * C) by nia. nia. }
  split; [exact Hlo|]. split; lia.
Qed.

(** The brightness of a block of an 8-bit image of [ch] channels lies
    between 0 and [255 * ch]. *)
Lemma get_pixel_color_eight_bit {k : rank} (t : PixelArtGenerator)
    (img : ndarray (pixel Z k)) (w ch : nat) (i j : Z) :
  rect w img -> channels ch img -> eight_bit img ->
  Z.of_nat (length img) * Z.of_nat w * (Z.of_nat ch * 255) < 2 ^ 63 ->
  0 <= i -> 0 <= j -> 0 < step t -> step_fits t ->
  exists b, get_pixel_color t img i j = OK b /\ 0 <= b <= Z.of_nat ch * 255.
Proof.
  intros Hrect Hch H8 Hsize Hi Hj Hst Hfits. unfold step_fits in Hfits.
  rewrite (get_pixel_color_region t img w) by (assumption || lia).
  destruct (region_sum_eight_bit img (length img) w ch i j (step t) H8 Hch Hi Hj
              ltac:(lia)) as (Hlo & Hst2 & Hhw).
  rewrite wrap64_fits by (unfold fits64; lia).
  rewrite Z.pow_2_r, np_floor_divide_pos by (unfold fits64; nia).
  eexists. split; [reflexivity|]. split.
  - apply Z.div_pos; nia.
  - apply Z.div_le_upper_bound; nia.
Qed.

Lemma quantises_spec (t : PixelArtGenerator) (ch : nat) (s : Z) :
  quantises t ch = true -> 0 <= s <= Z.of_nat ch * 255 ->
  exists v x, new_value t s = OK v /\ store_int64 v = OK x /\ 0 <= x <= 255.
Proof.
  unfold quantises. rewrite forallb_forall. intros H Hs.
  specialize (H (Z.to_nat s)). rewrite Z2Nat.id in H by lia.
  specialize (H ltac:(apply in_seq; lia)).
  destruct (new_value t s) as [v|e]; [|discriminate].
  destruct (store_int64 v) as [x|e] eqn:Hx; [|discriminate].
  exists v, x. split; [reflexivity|]. split; [exact Hx|].
  apply andb_true_iff in H as [H1 H2]. lia.
Qed.

Lemma Forall_assign_slice {A : Type} (P : A -> Prop) (f : A -> A) (l : list A) (a b : Z) :
  Forall P l -> (forall x, P x -> P (f x)) -> Forall P (assign_slice f l a b).
Proof.
  intros Hl Hf. apply Forall_lookup. intros k y Hy.
  rewrite lookup_assign_slice in Hy.
  destruct (l !! k) as [x|] eqn:Hx; [|discriminate]. simpl in Hy. injection Hy as <-.
  pose proof (proj1 (Forall_lookup P l) Hl k x Hx).
  destruct (in_slice _ _ _ _); auto.
Qed.

Lemma eight_bit_setitem2 {k : rank} (img : ndarray (pixel Z k)) (r0 r1 c0 c1 x : Z) :
  eight_bit img -> 0 <= x <= 255 -> eight_bit (setitem2 img r0 r1 c0 c1 (fill x)).
Proof.
  intros H8 Hx. unfold eight_bit, setitem2.
  apply Forall_assign_slice; [exact H8|]. intros row Hrow.
  apply Forall_assign_slice; [exact Hrow|]. intros p _.
  rewrite values_fill. apply Forall_fmap, Forall_true. intros y. exact Hx.
Qed.

Lemma channels_setitem2 {E : Type} {k : rank} (img : ndarray (pixel E k)) (ch : nat)
    (r0 r1 c0 c1 : Z) (x : E) :
  channels ch img -> channels ch (setitem2 img r0 r1 c0 c1 (fill x)).
Proof.
  intros Hch. unfold channels, setitem2.
  apply Forall_assign_slice; [exact Hch|]. intros row Hrow.
  apply Forall_assign_slice; [exact Hrow|]. intros p Hp.
  rewrite length_values_fill. exact Hp.
Qed.

Lemma process_channels {k : rank} (t : PixelArtGenerator) (img img' : ndarray (pixel Z k))
    (ch : nat) (o : Z * Z) :
  process t img o = OK img' -> channels ch img -> channels ch img'.
Proof.
  intros H Hch. apply process_OK in H as (b & v & x & _ & _ & _ & ->).
  apply channels_setitem2, Hch.
Qed.

Lemma process_eight_bit {k : rank} (t : PixelArtGenerator) (img : ndarray (pixel Z k))
    (w ch : nat) (o : Z * Z) :
  quantises t ch = true -> rect w img -> channels ch img -> eight_bit img ->
  Z.of_nat (length img) * Z.of_nat w * (Z.of_nat ch * 255) < 2 ^ 63 ->
  0 <= fst o -> 0 <= snd o -> 0 < step t -> step_fits t ->
  exists img', process t img o = OK img' /\ eight_bit img'.
Proof.
  intros Hq Hrect Hch H8 Hsize Hi Hj Hst Hfits. unfold process, set_pixel_color.
  destruct (get_pixel_color_eight_bit t img w ch _ _ Hrect Hch H8 Hsize Hi Hj Hst Hfits)
    as (b & -> & Hb). simpl.
  destruct (quantises_spec t ch b Hq Hb) as (v & x & -> & Hx & Hx8). simpl.
  rewrite Hx. simpl.
  eexists. split; [reflexivity|]. apply eight_bit_setitem2; assumption.
Qed.

Lemma run_blocks_eight_bit_closed {k : rank} (t : PixelArtGenerator) (os : list (Z * Z))
    (img : ndarray (pixel Z k)) (w ch : nat) :
  quantises t ch = true -> 0 < step t -> step_fits t -> Forall (on_grid (step t)) os ->
  rect w img -> channels ch img -> eight_bit img ->
  Z.of_nat (length img) * Z.of_nat w * (Z.of_nat ch * 255) < 2 ^ 63 ->
  exists img', run_blocks t img os = OK img' /\ eight_bit img'.
Proof.
  intros Hq Hst Hfits Hos. revert img.
  induction Hos as [|o os Ho Hos IH]; intros img Hrect Hch H8 Hsize; simpl; [eauto|].
  destruct (on_grid_nonneg _ _ (Z.lt_le_incl _ _ Hst) Ho) as [Hi Hj].
  destruct (process_eight_bit t img w ch o Hq Hrect Hch H8 Hsize Hi Hj Hst Hfits)
    as (img1 & E & H8').
  rewrite E. simpl. pose proof (process_shape _ _ _ _ E) as Hs.
  apply IH.
  - apply (rect_shape img); [symmetry|]; assumption.
  - eapply process_channels; eauto.
  - exact H8'.
  - rewrite (shape_length _ _ Hs). exact Hsize.
Qed.

(** On an 8-bit image of two rows or more, with a positive step whose
    square fits 64 bits and a generator that quantises the range of the
    brightness, [generate] returns an 8-bit image of the same shape. *)
Lemma generate_eight_bit_closed {k : rank} (t : PixelArtGenerator)
    (img : ndarray (pixel Z k)) (w ch : nat) :
  quantises t ch = true -> 0 < step t -> step_fits t ->
  rect w img -> channels ch img -> eight_bit img -> (2 <= length img)%nat ->
  Z.of_nat (length img) * Z.of_nat w * (Z.of_nat ch * 255) < 2 ^ 63 ->
  exists img', generate t img = OK img' /\ shape img' = shape img /\ eight_bit img'.
Proof.
  intros Hq Hst Hfits Hrect Hch H8 Hlen Hsize.
  destruct (lookup_lt_is_Some_2 img 1) as [row1 Hrow1]; [lia|].
  destruct (py_range_OK (length img) (step t)) as [rows Hrows]; [lia|].
  destruct (py_range_OK (length row1) (step t)) as [js Hjs]; [lia|].
  rewrite (generate_run t img row1 rows js) by assumption.
  destruct (run_blocks_eight_bit_closed t (origins rows js) img w ch Hq Hst Hfits
              (origins_on_grid _ _ _ _ _ Hst Hrows Hjs) Hrect Hch H8 Hsize)
    as (img' & H & H8').
  exists img'. split; [exact H|]. split; [|exact H8'].
  eapply run_blocks_shape; eauto.
Qed.

(** Six gradations, the default, quantise the range of the brightness of
    single-channel and of three-channel 8-bit images. *)
Lemma quantises_default (n : Z) :
  quantises (default_generator n) 1 = true /\ quantises (default_generator n) 3 = true.
Proof. split; vm_compute; reflexivity. Qed.

(** In an array of rank 2 every pixel has one value. *)
Lemma channels_rank2 {E : Type} (img : ndarray (pixel E rank2)) : channels 1 img.
Proof.
  unfold channels. apply Forall_true. intros row. apply Forall_true. reflexivity.
Qed.

(** ** Arrays are determined by their shape and their cells *)

Lemma ndarray_ext {A : Type} (a b : ndarray A) :
  shape a = shape b -> (forall r c, lookup2 a r c = lookup2 b r c) -> a = b.
Proof.
  intros Hs Hl. apply list_eq. intros r.
  assert (length <$> a !! r = length <$> b !! r) as Hr.
  { rewrite <- !list_lookup_fmap. f_equal. exact Hs. }
  specialize (Hl r). unfold lookup2 in Hl.
  destruct (a !! r) as [ra|], (b !! r) as [rb|]; try discriminate; [|reflexivity].
  f_equal. apply list_eq. exact Hl.
Qed.

Lemma in_region_dec {A : Type} (a : ndarray A) (i j st : Z) (r c : nat) :
  in_region a i j st r c \/ ~ in_region a i j st r c.
Proof.
  unfold in_region. destruct (a !! r) as [row|] eqn:Hrow.
  - destruct (in_slice (length a) i (i + st) r) eqn:Hr;
      [destruct (in_slice (length row) j (j + st) c) eqn:Hc|].
    + left. eauto.
    + right. intros (row' & [= <-] & _ & Hc'). congruence.
    + right. intros (row' & _ & Hr' & _). congruence.
  - right. intros (row' & Hrow' & _). discriminate.
Qed.

Lemma in_region_shape {A B : Type} (a : ndarray A) (b : ndarray B) (i j st : Z) (r c : nat) :
  shape a = shape b -> in_region a i j st r c -> in_region b i j st r c.
Proof.
  intros Hs (row & Hrow & Hr & Hc).
  assert (length <$> a !! r = length <$> b !! r) as Hlen.
  { rewrite <- !list_lookup_fmap. f_equal. exact Hs. }
  rewrite Hrow in Hlen. destruct (b !! r) as [row'|] eqn:Hrow'; [|discriminate].
  injection Hlen as Hlen. exists row'. split; [exact Hrow'|].
  rewrite <- (shape_length _ _ Hs), <- Hlen. auto.
Qed.

(** ** Every block is sampled on the original image *)

Lemma region_sum_ext {k : rank} (a b : ndarray (pixel Z k)) (h w : nat) (i j st : Z) :
  0 <= i -> 0 <= j ->
  (forall r c, inside i j st r c -> lookup2 a r c = lookup2 b r c) ->
  region_sum h w a i j st = region_sum h w b i j st.
Proof.
  intros Hi Hj H. unfold region_sum. f_equal. apply map_ext_elem. intros r Hr.
  apply clipped_lt in Hr as [_ Hr]; [|assumption].
  f_equal. apply map_ext_elem. intros c Hc.
  apply clipped_lt in Hc as [_ Hc]; [|assumption].
  rewrite H by (split; assumption). reflexivity.
Qed.

Lemma get_pixel_color_ext {k : rank} (t : PixelArtGenerator) (a b : ndarray (pixel Z k))
    (w : nat) (i j : Z) :
  rect w a -> shape a = shape b -> 0 <= i -> 0 <= j -> 0 <= step t ->
  (forall r c, inside i j (step t) r c -> lookup2 a r c = lookup2 b r c) ->
  get_pixel_color t a i j = get_pixel_color t b i j.
Proof.
  intros Hrect Hs Hi Hj Hst H.
  rewrite (get_pixel_color_region t a w), (get_pixel_color_region t b w);
    try assumption; [|apply (rect_shape a); assumption].
  rewrite (shape_length _ _ Hs).
  rewrite (region_sum_ext a b _ _ i j (step t) Hi Hj H). reflexivity.
Qed.

Lemma NoDup_origins (rows js : list Z) :
  NoDup rows -> NoDup js -> NoDup (origins rows js).
Proof.
  intros Hrows Hjs. unfold origins.
  induction Hrows as [|i rows Hi Hrows IH]; simpl; [constructor|].
  apply NoDup_app. split; [|split].
  - apply (NoDup_fmap_2_strong (fun j => (i, j))); [|exact Hjs]. intros x y _ _ [= ->]. reflexivity.
  - intros [i' j'] H1 H2. apply list_elem_of_fmap in H1 as (j & [= -> ->] & _).
    apply (elem_of_origins rows js i j) in H2 as [H2 _]. contradiction.
  - exact IH.
Qed.

Lemma NoDup_py_range (n : nat) (st : Z) (l : list Z) :
  0 < st -> py_range n st = OK l -> NoDup l.
Proof.
  intros Hst. rewrite py_range_pos by assumption. intros [= <-].
  apply (NoDup_fmap_2_strong (fun k : nat => Z.of_nat k * st)); [|apply NoDup_seq].
  intros x y _ _ Hxy. nia.
Qed.

Lemma run_blocks_blockwise {k : rank} (t : PixelArtGenerator) (os : list (Z * Z))
    (img img' : ndarray (pixel Z k)) (w : nat) :
  0 < step t -> Forall (on_grid (step t)) os -> NoDup os -> rect w img ->
  run_blocks t img os = OK img' ->
  forall o, o ∈ os ->
    exists b v x,
      get_pixel_color t img (fst o) (snd o) = OK b /\
      new_value t b = OK v /\ store_int64 v = OK x /\
      forall r c old, inside (fst o) (snd o) (step t) r c -> lookup2 img r c = Some old ->
        lookup2 img' r c = Some (fill x old).
Proof.
  intros Hst Hos. revert img.
  induction Hos as [|o1 os Ho1 Hos IH]; intros img Hnd Hrect H o Ho; simpl in H.
  { inversion Ho. }
  inv_bind H. rename x into img1. apply NoDup_cons in Hnd as [Hnotin Hnd].
  destruct (on_grid_nonneg _ _ (Z.lt_le_incl _ _ Hst) Ho1) as [Hi1 Hj1].
  pose proof (process_shape _ _ _ _ E) as Hs.
  apply elem_of_cons in Ho as [->|Ho].
  - pose proof (process_OK _ _ _ _ E) as (b & v & x & Hb & Hv & Hx & Himg1).
    exists b, v, x. split; [exact Hb|]. split; [exact Hv|]. split; [exact Hx|].
    intros r c old Hin Hold.
    rewrite (run_blocks_frame t os img1 img' r c (Z.lt_le_incl _ _ Hst) Hos H).
    + rewrite Himg1, lookup2_setitem2_in, Hold; [reflexivity|].
      rewrite in_region_inside by (assumption || lia). rewrite Hold. eauto.
    + intros o' Ho' Hin'. apply Hnotin.
      rewrite (on_grid_disjoint (step t) o1 o' r c); auto.
      rewrite Forall_forall in Hos. auto.
  - assert (o <> o1) as Hne by congruence.
    assert (on_grid (step t) o) as Hog by (rewrite Forall_forall in Hos; auto).
    destruct (on_grid_nonneg _ _ (Z.lt_le_incl _ _ Hst) Hog) as [Hi Hj].
    destruct (IH img1 Hnd (rect_shape img img1 w (eq_sym Hs) Hrect) H o Ho)
      as (b & v & x & Hb & Hv & Hx & Hcells).
    assert (forall r c, inside (fst o) (snd o) (step t) r c ->
                        lookup2 img1 r c = lookup2 img r c) as Hsame.
    { intros r c Hrc.
      apply (process_out t img img1 o1 r c Hi1 Hj1 (Z.lt_le_incl _ _ Hst) E).
      intros Hrc1. apply Hne.
      exact (on_grid_disjoint (step t) o o1 r c Hst Hog Ho1 Hrc Hrc1). }
    assert (get_pixel_color t img1 (fst o) (snd o) = get_pixel_color t img (fst o) (snd o))
      as Hget.
    { symmetry. apply (get_pixel_color_ext t img img1 w); try assumption; [congruence|lia|].
      intros r c Hrc. symmetry. apply Hsame, Hrc. }
    rewrite Hget in Hb. exists b, v, x.
    split; [exact Hb|]. split; [exact Hv|]. split; [exact Hx|].
    intros r c old Hin Hold. apply Hcells; [exact Hin|]. rewrite Hsame by exact Hin. exact Hold.
Qed.

Lemma generate_blocks {k : rank} (t : PixelArtGenerator) (img img' : ndarray (pixel Z k))
    (w : nat) :
  rect w img -> 0 < step t ->
  generate t img = OK img' ->
  forall a b : nat,
    Z.of_nat a * step t < Z.of_nat (length img) -> Z.of_nat b * step t < Z.of_nat w ->
    exists s v x,
      get_pixel_color t img (Z.of_nat a * step t) (Z.of_nat b * step t) = OK s /\
      new_value t s = OK v /\ store_int64 v = OK x /\
      forall r c old,
        inside (Z.of_nat a * step t) (Z.of_nat b * step t) (step t) r c ->
        lookup2 img r c = Some old -> lookup2 img' r c = Some (fill x old).
Proof.
  intros Hrect Hst H a b Ha Hb.
  apply generate_OK in H as (row1 & rows & js & Hrow1 & Hrows & Hjs & H).
  assert (length row1 = w) as Hw.
  { unfold rect in Hrect. rewrite Forall_forall in Hrect. apply Hrect.
    eapply list_elem_of_lookup_2; eauto. }
  rewrite Hw in Hjs.
  apply (run_blocks_blockwise t (origins rows js) img img' w Hst
           (origins_on_grid _ _ _ _ _ Hst Hrows Hjs)
           (NoDup_origins _ _ (NoDup_py_range _ _ _ Hst Hrows) (NoDup_py_range _ _ _ Hst Hjs))
           Hrect H (Z.of_nat a * step t, Z.of_nat b * step t)).
  apply elem_of_origins. split.
  - apply (elem_of_py_range _ _ _ _ Hst Hrows). eauto.
  - apply (elem_of_py_range _ _ _ _ Hst Hjs). eauto.
Qed.

(** The block of the grid of blocks that holds a cell. *)
Lemma block_of_cell (st : Z) (r c : nat) :
  0 < st ->
  exists a b : nat,
    Z.of_nat a = Z.of_nat r / st /\ Z.of_nat b = Z.of_nat c / st /\
    inside (Z.of_nat a * st) (Z.of_nat b * st) st r c.
Proof.
  intros Hst.
  pose proof (Z.div_pos (Z.of_nat r) st ltac:(lia) Hst).
  pose proof (Z.div_pos (Z.of_nat c) st ltac:(lia) Hst).
  pose proof (Z.mul_div_le (Z.of_nat r) st Hst).
  pose proof (Z.mul_div_le (Z.of_nat c) st Hst).
  pose proof (Z.mul_succ_div_gt (Z.of_nat r) st Hst).
  pose proof (Z.mul_succ_div_gt (Z.of_nat c) st Hst).
  exists (Z.to_nat (Z.of_nat r / st)), (Z.to_nat (Z.of_nat c / st)).
  rewrite !Z2Nat.id by assumption. split; [reflexivity|]. split; [reflexivity|].
  unfold inside. nia.
Qed.

(** * The claims *)

Ltac by_computation := vm_compute; reflexivity.

Ltac in_range :=
  vm_compute; split; [let H := fresh in intros H; discriminate H | reflexivity].

(** A property of the values of a literal array, value by value. *)
Ltac each_value tac :=
  repeat first [apply Forall_nil_2 | apply Forall_cons_2]; tac.

(** The default generator is the one that [PixelArtGenerator(pixel_step=n)]
    builds: [255 / 6] is 42.5. *)
Lemma init_default (n : Z) : init 6 n = OK (default_generator n).
Proof. reflexivity. Qed.

(** ** [get_pixel_color] *)

(** C1, as stated, fails in three ways. On a grid of 64-bit integers the
    sum leaves the range in which [np.sum] accumulates: four cells of [2^62]
    sum to [2^64], which wraps to 0. The square of the positive step
    3037000500 does not fit the 64-bit type of the sum: the floor division
    raises [OverflowError]. On a float64 grid the sum is rounded: the two
    cells [2^55] and 4 of a clipped block sum to [2^55], and the sample is
    [2^53], not [2^53 + 1]. *)
Lemma get_pixel_color_sum_fails :
  (region_sum 2 2 (grey (replicate 2 (replicate 2 (2 ^ 62)))) 0 0 2 / (2 * 2) = 2 ^ 62 /\
   get_pixel_color (default_generator 2) (grey (replicate 2 (replicate 2 (2 ^ 62)))) 0 0 =
     OK 0) /\
  (region_sum 3 3 docstring_grid 0 0 3037000500 / (3037000500 * 3037000500) = 0 /\
   get_pixel_color (default_generator 3037000500) docstring_grid 0 0 =
     Raise OverflowError) /\
  ((2 ^ 55 + 4) / (2 * 2) = 2 ^ 53 + 1 /\
   get_pixel_color_float64_pair (default_generator 2) (of_Z (2 ^ 55)) (of_Z 4) =
     OK (of_Z (2 ^ 53)) /\
   truncZ (of_Z (2 ^ 53)) = 2 ^ 53).
Proof.
  split; [split; by_computation|]. split; [split; by_computation|].
  split; [by_computation|]. split; by_computation.
Qed.

(** C1, amended: for a grid of 64-bit integers, a top-left coordinate
    [(i, j)] and a positive step whose square fits 64 bits,
    [get_pixel_color] returns the sum of all the values of
    [grid[i:i+step, j:j+step]], clipped to the grid, as the 64-bit
    accumulator of [np.sum] holds it, floor-divided by the full
    [step * step]; that is the arithmetic sum whenever it is representable
    in the accumulator. When the square of the step does not fit 64 bits,
    [get_pixel_color] raises [OverflowError]. *)
Theorem get_pixel_color_sum {k : rank} (t : PixelArtGenerator) (img : ndarray (pixel Z k))
    (w : nat) (i j : Z) :
  rect w img -> int64_grid img -> 0 <= i -> 0 <= j -> 0 < step t ->
  (step t * step t < 2 ^ 63 ->
   get_pixel_color t img i j =
     OK (wrap64 (region_sum (length img) w img i j (step t)) / (step t * step t)) /\
   (fits64 (region_sum (length img) w img i j (step t)) ->
    get_pixel_color t img i j =
      OK (region_sum (length img) w img i j (step t) / (step t * step t)))) /\
  (2 ^ 63 <= step t * step t -> get_pixel_color t img i j = Raise OverflowError).
Proof.
  intros Hrect _ Hi Hj Hst.
  rewrite (get_pixel_color_region t img w) by (assumption || lia).
  rewrite Z.pow_2_r. split.
  - intros Hfits. rewrite np_floor_divide_pos by (apply wrap64_range || nia).
    split; [reflexivity|]. intros Hsum. rewrite wrap64_fits by assumption. reflexivity.
  - apply np_floor_divide_big.
Qed.

Lemma get_pixel_color_sum_witness :
  get_pixel_color (default_generator 2) docstring_grid 2 2 =
  OK (region_sum 3 3 docstring_grid 2 2 2 / (2 * 2)).
Proof.
  destruct (get_pixel_color_sum (default_generator 2) docstring_grid 3%nat 2 2) as [H _].
  - repeat constructor.
  - each_value in_range.
  - lia.
  - lia.
  - simpl. lia.
  - apply H.
    + vm_compute. reflexivity.
    + in_range.
Defined.

(** The clipped corner block of the docstring grid holds the single cell 35
    and is still divided by 4. *)
Example get_pixel_color_corner :
  region_sum 3 3 docstring_grid 2 2 2 = 35 /\
  get_pixel_color (default_generator 2) docstring_grid 2 2 = OK 8.
Proof. split; reflexivity. Qed.

(** On a colour image the sum runs over every channel of every pixel of
    the block. *)
Example get_pixel_color_rgb :
  get_pixel_color (default_generator 2) white_rgb 0 0 = OK ((4 * (255 + 255 + 255)) / 4) /\
  get_pixel_color (default_generator 1) (colour [[[10; 20; 30]; [1; 2; 3]]]) 0 1 = OK 6.
Proof. split; reflexivity. Qed.




(** C9: the docstring examples of [get_pixel_color]. *)
Theorem get_pixel_color_docstring :
  get_pixel_color (default_generator 2) docstring_grid 0 0 = OK ((124 + 76 + 54 + 54) / 4) /\
  (124 + 76 + 54 + 54) / 4 = 77 /\
  get_pixel_color (default_generator 1) docstring_grid 0 0 = OK (124 / 1) /\
  124 / 1 = 124.
Proof. repeat split. Qed.

(** ** [set_pixel_color] *)

Lemma py_int_OK (q : float) (l : Z) : py_int q = OK l -> l = truncZ q.
Proof. destruct q; simpl; intros H; try discriminate; injection H as <-; reflexivity. Qed.

Lemma py_int_finite (q : float) : is_finite q = true -> py_int q = OK (truncZ q).
Proof. destruct q; simpl; intros H; try discriminate; reflexivity. Qed.


Lemma store_int64_fits (v : float) :
  is_finite v = true -> fits64 (truncZ v) -> store_int64 v = OK (truncZ v).
Proof.
  intros Hv [Hlo Hhi]. unfold store_int64. rewrite py_int_finite by assumption. simpl.
  destruct (Z.leb_spec (- 2 ^ 63) (truncZ v)); [|lia].
  destruct (Z.ltb_spec (truncZ v) (2 ^ 63)); [|lia]. reflexivity.
Qed.

Lemma store_int64_overflow (v : float) :
  is_finite v = true -> ~ fits64 (truncZ v) -> store_int64 v = Raise OverflowError.
Proof.
  intros Hv Hout. unfold store_int64. rewrite py_int_finite by assumption. simpl.
  destruct (Z.leb_spec (- 2 ^ 63) (truncZ v)); [|reflexivity].
  destruct (Z.ltb_spec (truncZ v) (2 ^ 63)); [|reflexivity].
  exfalso. apply Hout. unfold fits64. auto.
Qed.

(** C2, as stated, fails on an integer grid: with brightness 85 and six
    gradations the value [2 * 42.5 / 3] is not an integer, the cell
    receives 28; and with brightness [2^66] the value does not fit the
    element type, nothing is written and [OverflowError] is raised. *)
Lemma set_pixel_color_int_grid :
  (exists img' v,
     set_pixel_color int64 (default_generator 1) (grey [[1]]) 0 0 85 = OK img' /\
     new_value (default_generator 1) 85 = OK v /\
     in_region (grey [[1]]) 0 0 1 0 0 /\
     lookup2 img' 0 0 = Some 28 /\
     cell_value 28 <> v) /\
  (exists v,
     new_value (default_generator 1) (2 ^ 66) = OK v /\
     set_pixel_color int64 (default_generator 1) (grey [[1]]) 0 0 (2 ^ 66) =
       Raise OverflowError).
Proof.
  split.
  - eexists. eexists. split; [reflexivity|]. split; [reflexivity|]. split; [|split].
    + exists [1]. repeat split.
    + reflexivity.
    + vm_compute. discriminate.
  - eexists. split; by_computation.
Qed.

(** C2, amended: [set_pixel_color] computes the level as the integer part of
    [s // gradation], not clamped, and the value [level * gradation / 3].
    The assignment converts that value to the element type of the grid and
    writes it into every value of every pixel of the region
    [grid[i:i+step, j:j+step]]: the value itself in a float64 grid; its
    integer part in a grid of 64-bit integers when that fits 64 bits, and
    otherwise the call raises [OverflowError]. *)
Theorem set_pixel_color_block {k : rank} (t : PixelArtGenerator) (i j s l : Z) (lf : float) :
  level t s = OK l -> of_int l = OK lf ->
  let v := div (mul lf (gradation t)) (of_Z 3) in
  l = truncZ (floor_divide (of_Z s) (gradation t)) /\
  new_value t s = OK v /\
  (forall (dt : dtype) (x : elem dt) (img : ndarray (pixel (elem dt) k)),
     store dt v = OK x ->
     exists img', set_pixel_color dt t img i j s = OK img' /\
                  block_filled img img' i j (step t) x) /\
  (forall img : ndarray (pixel float k),
     exists img', set_pixel_color float64 t img i j s = OK img' /\
                  block_filled img img' i j (step t) v) /\
  (is_finite v = true -> fits64 (truncZ v) ->
   forall img : ndarray (pixel Z k),
     exists img', set_pixel_color int64 t img i j s = OK img' /\
                  block_filled img img' i j (step t) (truncZ v)) /\
  (is_finite v = true -> ~ fits64 (truncZ v) ->
   forall img : ndarray (pixel Z k),
     set_pixel_color int64 t img i j s = Raise OverflowError).
Proof.
  intros Hl Hlf v.
  assert (new_value t s = OK v) as Hv by (unfold new_value; rewrite Hl; simpl; rewrite Hlf; reflexivity).
  assert (forall (dt : dtype) (x : elem dt) (img : ndarray (pixel (elem dt) k)),
            store dt v = OK x ->
            exists img', set_pixel_color dt t img i j s = OK img' /\
                         block_filled img img' i j (step t) x) as Hgen.
  { intros dt x img Hx. unfold set_pixel_color. rewrite Hv. simpl. rewrite Hx. simpl.
    eexists. split; [reflexivity|]. intros r c Hrc.
    destruct (in_region_is_Some _ _ _ _ _ _ Hrc) as [old Hold]. exists old.
    split; [exact Hold|]. rewrite lookup2_setitem2_in, Hold by exact Hrc. reflexivity. }
  split; [apply py_int_OK, Hl|]. split; [exact Hv|]. split; [exact Hgen|].
  split; [|split].
  - intros img. apply (Hgen float64). reflexivity.
  - intros Hfin Hfits img. apply (Hgen int64). apply store_int64_fits; assumption.
  - intros Hfin Hout img. unfold set_pixel_color. rewrite Hv. simpl.
    rewrite store_int64_overflow by assumption. reflexivity.
Qed.

Lemma set_pixel_color_block_witness :
  (exists img', set_pixel_color float64 (default_generator 2) (ones_float 4 4) 0 0 255 = OK img' /\
                block_filled (ones_float 4 4) img' 0 0 2 (of_Z 85)) /\
  (exists img', set_pixel_color int64 (default_generator 1) (grey [[1]]) 0 0 85 = OK img' /\
                block_filled (grey [[1]]) img' 0 0 1 28) /\
  set_pixel_color int64 (default_generator 1) (grey [[1]]) 0 0 (2 ^ 66) = Raise OverflowError.
Proof.
  split; [|split].
  - destruct (set_pixel_color_block (k := rank2) (default_generator 2) 0 0 255 6 (of_Z 6)
                eq_refl eq_refl) as (_ & _ & _ & Hf & _).
    exact (Hf (ones_float 4 4)).
  - destruct (set_pixel_color_block (k := rank2) (default_generator 1) 0 0 85 2 (of_Z 2)
                eq_refl eq_refl) as (_ & _ & _ & _ & Hi & _).
    apply (Hi eq_refl). in_range.
  - destruct (set_pixel_color_block (k := rank2) (default_generator 1) 0 0 (2 ^ 66)
                1736164148113840128 (of_Z 1736164148113840128)
                ltac:(vm_compute; reflexivity) ltac:(vm_compute; reflexivity))
      as (_ & _ & _ & _ & _ & Ho).
    apply (Ho eq_refl). vm_compute. intros [_ H]. discriminate H.
Defined.

(** The level is not clamped to [0, gradations - 1]: with six gradations
    the brightness 255 already yields level 6, and brightnesses outside
    0-255 yield levels further out. *)
Example level_not_clamped :
  level (default_generator 2) 255 = OK 6 /\
  level (default_generator 2) 1000 = OK 23 /\
  level (default_generator 2) (-100) = OK (-3).
Proof. repeat split. Qed.

(** The docstring examples of [set_pixel_color], on float grids. *)
Example set_pixel_color_docstring :
  set_pixel_color float64 (default_generator 2) (ones_float 4 4) 0 0 255 =
    OK (map (map of_Z) [[85; 85; 1; 1]; [85; 85; 1; 1]; [1; 1; 1; 1]; [1; 1; 1; 1]]) /\
  set_pixel_color float64 (default_generator 10) (ones_float 4 4) 2 2 255 =
    OK (map (map of_Z) [[1; 1; 1; 1]; [1; 1; 1; 1]; [1; 1; 85; 85]; [1; 1; 85; 85]]) /\
  (exists t, init 1 3 = OK t /\
     set_pixel_color float64 t (ones_float 6 6) 2 2 0 =
       OK (map (map of_Z) [[1; 1; 1; 1; 1; 1]; [1; 1; 1; 1; 1; 1]; [1; 1; 0; 0; 0; 1];
                           [1; 1; 0; 0; 0; 1]; [1; 1; 0; 0; 0; 1]; [1; 1; 1; 1; 1; 1]])).
Proof.
  split; [by_computation|]. split; [by_computation|].
  eexists. split; [reflexivity | by_computation].
Qed.

(** On a colour image the value is written into every channel. *)
Example set_pixel_color_rgb :
  set_pixel_color int64 (default_generator 1) (colour [[[10; 20; 30]; [1; 2; 3]]]) 0 1 765 =
    OK (colour [[[10; 20; 30]; [255; 255; 255]]]).
Proof. by_computation. Qed.

(** C8: [set_pixel_color] leaves every cell outside the region
    [grid[i:i+step, j:j+step]] unchanged. *)
Theorem set_pixel_color_frame (dt : dtype) {k : rank} (t : PixelArtGenerator)
    (img : ndarray (pixel (elem dt) k)) (i j s : Z) (img' : ndarray (pixel (elem dt) k))
    (r c : nat) :
  set_pixel_color dt t img i j s = OK img' ->
  ~ in_region img i j (step t) r c ->
  lookup2 img' r c = lookup2 img r c.
Proof.
  intros H Hout. apply set_pixel_color_OK in H as (v & x & _ & _ & ->).
  apply lookup2_setitem2_out, Hout.
Qed.

Lemma set_pixel_color_frame_witness :
  lookup2 (setitem2 (ones_float 4 4) 0 2 0 2 (fill (of_Z 85))) 1 2 =
  lookup2 (ones_float 4 4) 1 2.
Proof.
  apply (set_pixel_color_frame float64 (default_generator 2) (ones_float 4 4) 0 0 255).
  - vm_compute. reflexivity.
  - intros (row & Hrow & Hr & Hc). vm_compute in Hrow. injection Hrow as <-.
    vm_compute in Hc. discriminate Hc.
Defined.

(** The region is the rectangle of the coordinates when the origin is not
    negative: rows [i .. i+step-1] and columns [j .. j+step-1] of the grid. *)
Lemma set_pixel_color_frame_inside (dt : dtype) {k : rank} (t : PixelArtGenerator)
    (img : ndarray (pixel (elem dt) k)) (i j s : Z) (img' : ndarray (pixel (elem dt) k))
    (r c : nat) :
  0 <= i -> 0 <= j -> 0 <= step t ->
  set_pixel_color dt t img i j s = OK img' ->
  ~ inside i j (step t) r c ->
  lookup2 img' r c = lookup2 img r c.
Proof.
  intros Hi Hj Hst H Hout. apply set_pixel_color_OK in H as (v & x & _ & _ & ->).
  apply lookup2_setitem2_out. rewrite in_region_inside by assumption. tauto.
Qed.

(** ** [generate] *)

(** C6: the grid that [generate] returns has the shape of the image, and
    every pixel of a block of the grid of blocks holds one value there: the
    block is uniform, and one number [x] fills every value of every pixel
    that the image has in the block. And the pass does run to its end on an
    8-bit image of two rows or more, with a step whose square fits 64 bits
    and a generator that quantises the range of the brightness. *)
Theorem generate_uniform {k : rank} (t : PixelArtGenerator) (img : ndarray (pixel Z k))
    (w ch : nat) :
  rect w img -> channels ch img -> 0 < step t ->
  (forall img', generate t img = OK img' ->
     shape img' = shape img /\
     forall a b : nat,
       uniform_block img' (Z.of_nat a * step t) (Z.of_nat b * step t) (step t) /\
       exists x : Z, forall r c old,
         inside (Z.of_nat a * step t) (Z.of_nat b * step t) (step t) r c ->
         lookup2 img r c = Some old -> lookup2 img' r c = Some (fill x old)) /\
  (quantises t ch = true -> eight_bit img -> (2 <= length img)%nat ->
   Z.of_nat (length img) * Z.of_nat w * (Z.of_nat ch * 255) < 2 ^ 63 ->
   step t * step t < 2 ^ 63 ->
   exists img', generate t img = OK img').
Proof.
  intros Hrect Hch Hst. split.
  2:{ intros Hq H8 Hlen Hsize Hfits.
      destruct (generate_eight_bit_closed t img w ch Hq Hst Hfits Hrect Hch H8 Hlen Hsize)
        as (img' & H & _). eauto. }
  intros img' H. pose proof (generate_shape _ _ _ H) as Hshape.
  split; [exact Hshape|]. intros a b.
  assert (exists x : Z, forall r c old,
            inside (Z.of_nat a * step t) (Z.of_nat b * step t) (step t) r c ->
            lookup2 img r c = Some old -> lookup2 img' r c = Some (fill x old)) as [x Hx].
  { destruct (decide (Z.of_nat a * step t < Z.of_nat (length img) /\
                      Z.of_nat b * step t < Z.of_nat w)) as [[Ha Hb]|Hout].
    - destruct (generate_blocks t img img' w Hrect Hst H a b Ha Hb)
        as (s & v & x & _ & _ & _ & Hcells).
      exists x. exact Hcells.
    - exists 0. intros r c old [Hr Hc] Hold. exfalso. apply Hout.
      apply (lookup2_rect img w) in Hold as [Hrh Hcw]; [lia | assumption]. }
  split; [|exists x; exact Hx].
  intros r c r' c' p q Hin Hin' Hp Hq.
  destruct (shape_lookup2 img' img r c Hshape ltac:(eauto)) as [old Hold].
  destruct (shape_lookup2 img' img r' c' Hshape ltac:(eauto)) as [old' Hold'].
  rewrite (Hx r c old Hin Hold) in Hp. rewrite (Hx r' c' old' Hin' Hold') in Hq.
  injection Hp as <-. injection Hq as <-.
  apply fill_channels.
  unfold channels, lookup2 in *.
  destruct (img !! r) as [row|] eqn:Hrow; [|discriminate].
  destruct (img !! r') as [row'|] eqn:Hrow'; [|discriminate].
  rewrite Forall_forall in Hch.
  pose proof (Hch row (list_elem_of_lookup_2 _ _ _ Hrow)) as Hrowch.
  pose proof (Hch row' (list_elem_of_lookup_2 _ _ _ Hrow')) as Hrowch'.
  rewrite Forall_forall in Hrowch, Hrowch'.
  rewrite (Hrowch old (list_elem_of_lookup_2 _ _ _ Hold)).
  rewrite (Hrowch' old' (list_elem_of_lookup_2 _ _ _ Hold')). reflexivity.
Qed.

Lemma generate_uniform_witness :
  exists img', generate (default_generator 2) white3 = OK img' /\
    shape img' = shape white3 /\
    uniform_block img' 0 2 2 /\
    exists x : Z, forall r c old,
      inside 0 2 2 r c -> lookup2 white3 r c = Some old -> lookup2 img' r c = Some x.
Proof.
  destruct (generate_uniform (default_generator 2) white3 3%nat 1%nat) as [Hu Ht].
  - repeat constructor.
  - apply channels_rank2.
  - simpl. lia.
  - destruct Ht as [img' H].
    + vm_compute. reflexivity.
    + each_value ltac:(lia).
    + simpl. lia.
    + vm_compute. reflexivity.
    + vm_compute. reflexivity.
    + exists img'. destruct (Hu img' H) as [Hs Hb]. destruct (Hb 0%nat 1%nat) as [Hun Hx].
      split; [exact H|]. split; [exact Hs|]. split; [exact Hun | exact Hx].
Defined.

(** A colour image comes out with one value in every channel of every
    pixel of a block. *)
Example generate_rgb :
  generate (default_generator 2) white_rgb =
    OK (colour (replicate 2 (replicate 2 [255; 255; 255]))) /\
  generate (default_generator 1)
      (colour [[[255; 0; 0]; [12; 200; 31]]; [[0; 0; 0]; [255; 255; 255]]]) =
    OK (colour [[[85; 85; 85]; [70; 70; 70]]; [[0; 0; 0]; [255; 255; 255]]]).
Proof. split; by_computation. Qed.

(** C10: on a grid of fewer than two rows [generate] raises [IndexError]
    whatever the generator, before any block is processed, because the
    width is read from row 1; on a grid of two rows or more reading row 1
    amounts to reading row 0. *)
Theorem generate_reads_row1 {k : rank} (t : PixelArtGenerator) (img : ndarray (pixel Z k)) :
  ((length img < 2)%nat -> generate t img = Raise IndexError) /\
  (forall w, rect w img -> (2 <= length img)%nat -> generate t img = generate_row0 t img).
Proof.
  split.
  - intros Hlen. unfold generate, getitem.
    rewrite (proj2 (lookup_ge_None img 1)) by lia. reflexivity.
  - intros w Hrect Hlen. unfold generate, generate_row0, getitem.
    destruct (lookup_lt_is_Some_2 img 0) as [row0 Hrow0]; [lia|].
    destruct (lookup_lt_is_Some_2 img 1) as [row1 Hrow1]; [lia|].
    rewrite Hrow0, Hrow1. simpl.
    unfold rect in Hrect. rewrite Forall_forall in Hrect.
    rewrite (Hrect row0), (Hrect row1) by (eapply list_elem_of_lookup_2; eauto).
    reflexivity.
Qed.

Lemma generate_reads_row1_witness :
  generate (default_generator 10) one_row = Raise IndexError /\
  generate (default_generator 2) white3 = generate_row0 (default_generator 2) white3.
Proof.
  split.
  - apply (proj1 (generate_reads_row1 (default_generator 10) one_row)). simpl. lia.
  - apply (proj2 (generate_reads_row1 (default_generator 2) white3) 3%nat).
    + repeat constructor.
    + simpl. lia.
Defined.

(** C7 fails on an image of one row: [generate] raises [IndexError] and
    produces no grid, although the same loops run on the width of row 0
    return a grid of the shape of the input. *)
Theorem generate_one_row :
  generate (default_generator 10) one_row = Raise IndexError /\
  generate_row0 (default_generator 10) one_row = OK (grey [[0; 0; 0]]) /\
  shape (grey [[0; 0; 0]]) = shape one_row.
Proof. repeat split. Qed.

(** When [generate] returns a grid, it has the shape of its input. *)
Lemma generate_same_shape {k : rank} (t : PixelArtGenerator)
    (img img' : ndarray (pixel Z k)) :
  generate t img = OK img' ->
  length img' = length img /\
  forall r row', img' !! r = Some row' ->
    exists row, img !! r = Some row /\ length row' = length row.
Proof.
  intros H. pose proof (generate_shape _ _ _ H) as Hs. split.
  - apply shape_length, Hs.
  - intros r row' Hrow'. unfold shape in Hs.
    assert (length <$> img' !! r = length <$> img !! r) as Hr.
    { rewrite <- !list_lookup_fmap. f_equal. exact Hs. }
    rewrite Hrow' in Hr. destruct (img !! r) as [row|]; [|discriminate].
    injection Hr as Hr. eauto.
Qed.

(** C3, as stated, fails: on a white grid the first pass writes 85 and 28,
    the second pass turns them into 28 and 0. *)
Lemma generate_twice_differs :
  generate (default_generator 2) white3 =
    OK (grey [[85; 85; 28]; [85; 85; 28]; [28; 28; 14]]) /\
  generate (default_generator 2) (grey [[85; 85; 28]; [85; 85; 28]; [28; 28; 14]]) =
    OK (grey [[28; 28; 0]; [28; 28; 0]; [0; 0; 0]]).
Proof. split; by_computation. Qed.

(** C3, amended: when the first pass leaves 0 in every cell, a second pass
    with the same generator returns the same grid. *)
Theorem generate_twice_zero {k : rank} (t : PixelArtGenerator)
    (img img' : ndarray (pixel Z k)) :
  usable (gradation t) = true ->
  generate t img = OK img' ->
  all_zero img' ->
  generate t img' = OK img'.
Proof.
  intros Hg H Hz. destruct (generate_same_shape _ _ _ H) as [Hlen Hrows'].
  apply generate_OK in H as (row1 & rows & js & Hrow1 & Hrows & Hjs & Hrun).
  destruct (lookup_lt_is_Some_2 img' 1) as [row1' Hrow1'].
  { rewrite Hlen. apply lookup_lt_is_Some. eauto. }
  destruct (Hrows' _ _ Hrow1') as (row & Hrow & Hlen1).
  rewrite Hrow1 in Hrow. injection Hrow as <-.
  rewrite (generate_run t img' row1' rows js Hrow1') by (rewrite ?Hlen, ?Hlen1; assumption).
  apply run_blocks_zero; [assumption | | assumption].
  eapply run_blocks_step; eauto.
Qed.

Lemma generate_twice_zero_witness :
  generate (default_generator 2) (grey (replicate 3 (replicate 3 0))) =
  OK (grey (replicate 3 (replicate 3 0))).
Proof.
  apply (generate_twice_zero (default_generator 2) (grey [[1; 2; 3]; [4; 5; 6]; [7; 8; 9]])).
  - reflexivity.
  - vm_compute. reflexivity.
  - each_value ltac:(reflexivity).
Defined.

(** ** The script *)

(** With zero gradations the script fails with the [ZeroDivisionError] of
    [255 / gradations], whatever the image; with a zero step, non-zero
    gradations and an image of two rows or more it fails with the
    [ValueError] of [range(0, h, 0)]. Neither is caught. *)
Lemma main_degenerate {k : rank} :
  (forall size (image : ndarray (pixel Z k)), main 0 size image = Raise ZeroDivisionError) /\
  (forall gradations (image : ndarray (pixel Z k)),
     gradations <> 0 -> (2 <= length image)%nat ->
     main gradations 0 image = Raise ValueError).
Proof.
  split.
  - reflexivity.
  - intros gradations image Hg Hlen. unfold main.
    destruct (init_OK gradations 0 Hg) as [g ->]. simpl.
    unfold generate, getitem.
    destruct (lookup_lt_is_Some_2 image 1) as [row1 ->]; [lia|]. reflexivity.
Qed.

(** With the width read from row 0 the same holds for every image that has
    a row. *)
Lemma main_row0_degenerate {k : rank} :
  (forall size (image : ndarray (pixel Z k)),
     main_row0 0 size image = Raise ZeroDivisionError) /\
  (forall gradations (image : ndarray (pixel Z k)),
     gradations <> 0 -> (1 <= length image)%nat ->
     main_row0 gradations 0 image = Raise ValueError).
Proof.
  split.
  - reflexivity.
  - intros gradations image Hg Hlen. unfold main_row0.
    destruct (init_OK gradations 0 Hg) as [g ->]. simpl.
    unfold generate_row0, getitem.
    destruct (lookup_lt_is_Some_2 image 0) as [row0 ->]; [lia|]. reflexivity.
Qed.

(** C4 fails on an image of one row with a zero step: the script raises
    the [IndexError] of [img_array[1]], which is not an error of the
    arithmetic; with the width read from row 0 it raises the [ValueError]
    of [range(0, h, 0)], as the claim says. *)
Theorem main_zero_step_one_row :
  main 6 0 one_row = Raise IndexError /\
  ~ arithmetic_error IndexError /\
  main_row0 6 0 one_row = Raise ValueError /\
  arithmetic_error ValueError.
Proof.
  split; [reflexivity|]. split; [intros [H|H]; discriminate H|].
  split; [reflexivity|]. right. reflexivity.
Qed.

(** * Further properties of the code *)

(** ** [set_pixel_color]: shape, overwriting and order *)

(** [set_pixel_color] returns an array of the shape of its argument. *)
Theorem set_pixel_color_shape (dt : dtype) {k : rank} (t : PixelArtGenerator)
    (img : ndarray (pixel (elem dt) k)) (i j s : Z) (img' : ndarray (pixel (elem dt) k)) :
  set_pixel_color dt t img i j s = OK img' -> shape img' = shape img.
Proof.
  intros H. apply set_pixel_color_OK in H as (v & x & _ & _ & ->). apply shape_setitem2.
Qed.

Lemma set_pixel_color_shape_witness :
  shape (setitem2 (ones_float 4 4) 3 5 3 5 (fill (of_Z 85))) = shape (ones_float 4 4).
Proof.
  apply (set_pixel_color_shape float64 (default_generator 2) (ones_float 4 4) 3 3 255).
  vm_compute. reflexivity.
Defined.

Lemma assign_slice_twice {A : Type} (f g : A -> A) (l : list A) (a b : Z) :
  assign_slice f (assign_slice g l a b) a b = assign_slice (fun x => f (g x)) l a b.
Proof.
  apply list_eq. intros k.
  rewrite !lookup_assign_slice, length_assign_slice.
  destruct (l !! k) as [x|]; simpl; [|reflexivity].
  destruct (in_slice _ _ _ _); reflexivity.
Qed.

Lemma assign_slice_ext {A : Type} (f g : A -> A) (l : list A) (a b : Z) :
  (forall x, x ∈ l -> f x = g x) -> assign_slice f l a b = assign_slice g l a b.
Proof.
  intros H. apply list_eq. intros k. rewrite !lookup_assign_slice.
  destruct (l !! k) as [x|] eqn:Hx; simpl; [|reflexivity].
  destruct (in_slice _ _ _ _); [|reflexivity].
  rewrite (H x) by (eapply list_elem_of_lookup_2; eauto). reflexivity.
Qed.

Lemma setitem2_twice {A : Type} (a : ndarray A) (r0 r1 c0 c1 : Z) (f g : A -> A) :
  (forall x, f (g x) = f x) ->
  setitem2 (setitem2 a r0 r1 c0 c1 g) r0 r1 c0 c1 f = setitem2 a r0 r1 c0 c1 f.
Proof.
  intros Hfg. unfold setitem2. rewrite assign_slice_twice. apply assign_slice_ext.
  intros row _. rewrite assign_slice_twice. apply assign_slice_ext.
  intros x _. apply Hfg.
Qed.

(** A second [set_pixel_color] on the same block overwrites the first: the
    result is the one of the second call alone. *)
Theorem set_pixel_color_overwrite (dt : dtype) {k : rank} (t : PixelArtGenerator)
    (img img1 : ndarray (pixel (elem dt) k)) (i j s1 s2 : Z) :
  set_pixel_color dt t img i j s1 = OK img1 ->
  set_pixel_color dt t img1 i j s2 = set_pixel_color dt t img i j s2.
Proof.
  intros H. apply set_pixel_color_OK in H as (v1 & x1 & _ & _ & ->).
  unfold set_pixel_color. destruct (new_value t s2) as [v2|e]; simpl; [|reflexivity].
  destruct (store dt v2) as [x2|e]; simpl; [|reflexivity].
  rewrite setitem2_twice; [reflexivity|]. intros p. apply fill_fill.
Qed.

Lemma set_pixel_color_overwrite_witness :
  set_pixel_color int64 (default_generator 2)
    (grey [[85; 85; 255]; [85; 85; 255]; [255; 255; 255]]) 0 0 0 =
  set_pixel_color int64 (default_generator 2) white3 0 0 0.
Proof.
  apply (set_pixel_color_overwrite int64 (default_generator 2) white3 _ 0 0 255 0).
  vm_compute. reflexivity.
Defined.

Lemma lookup2_setitem2_cases {A : Type} (a : ndarray A) (i j st : Z) (f : A -> A)
    (r c : nat) :
  (in_region a i j st r c /\
   lookup2 (setitem2 a i (i + st) j (j + st) f) r c = f <$> lookup2 a r c) \/
  (~ in_region a i j st r c /\
   lookup2 (setitem2 a i (i + st) j (j + st) f) r c = lookup2 a r c).
Proof.
  destruct (in_region_dec a i j st r c) as [Hin|Hout].
  - left. split; [exact Hin | apply lookup2_setitem2_in, Hin].
  - right. split; [exact Hout | apply lookup2_setitem2_out, Hout].
Qed.

Lemma setitem2_commute {A : Type} (a : ndarray A) (i1 j1 i2 j2 st : Z) (f1 f2 : A -> A) :
  (forall r c, ~ (in_region a i1 j1 st r c /\ in_region a i2 j2 st r c)) ->
  setitem2 (setitem2 a i1 (i1 + st) j1 (j1 + st) f1) i2 (i2 + st) j2 (j2 + st) f2 =
  setitem2 (setitem2 a i2 (i2 + st) j2 (j2 + st) f2) i1 (i1 + st) j1 (j1 + st) f1.
Proof.
  intros Hdisj. apply ndarray_ext; [rewrite !shape_setitem2; reflexivity|].
  intros r c.
  set (a1 := setitem2 a i1 (i1 + st) j1 (j1 + st) f1).
  set (a2 := setitem2 a i2 (i2 + st) j2 (j2 + st) f2).
  assert (shape a1 = shape a) as Hs1 by apply shape_setitem2.
  assert (shape a2 = shape a) as Hs2 by apply shape_setitem2.
  destruct (in_region_dec a i1 j1 st r c) as [H1|H1];
  destruct (in_region_dec a i2 j2 st r c) as [H2|H2].
  - exfalso. apply (Hdisj r c). auto.
  - rewrite (lookup2_setitem2_out a1 i2 j2)
      by (intros H; apply H2; exact (in_region_shape a1 a _ _ _ _ _ Hs1 H)).
    rewrite (lookup2_setitem2_in a2 i1 j1)
      by (exact (in_region_shape a a2 _ _ _ _ _ (eq_sym Hs2) H1)).
    subst a1 a2. rewrite (lookup2_setitem2_in a i1 j1) by exact H1.
    rewrite (lookup2_setitem2_out a i2 j2) by exact H2. reflexivity.
  - rewrite (lookup2_setitem2_in a1 i2 j2)
      by (exact (in_region_shape a a1 _ _ _ _ _ (eq_sym Hs1) H2)).
    rewrite (lookup2_setitem2_out a2 i1 j1)
      by (intros H; apply H1; exact (in_region_shape a2 a _ _ _ _ _ Hs2 H)).
    subst a1 a2. rewrite (lookup2_setitem2_out a i1 j1) by exact H1.
    rewrite (lookup2_setitem2_in a i2 j2) by exact H2. reflexivity.
  - rewrite (lookup2_setitem2_out a1 i2 j2)
      by (intros H; apply H2; exact (in_region_shape a1 a _ _ _ _ _ Hs1 H)).
    rewrite (lookup2_setitem2_out a2 i1 j1)
      by (intros H; apply H1; exact (in_region_shape a2 a _ _ _ _ _ Hs2 H)).
    subst a1 a2. rewrite (lookup2_setitem2_out a i1 j1) by exact H1.
    rewrite (lookup2_setitem2_out a i2 j2) by exact H2. reflexivity.
Qed.

(** Two [set_pixel_color] on regions that share no cell can be exchanged:
    the final array is the same. *)
Theorem set_pixel_color_commute (dt : dtype) {k : rank} (t : PixelArtGenerator)
    (img img1 img12 : ndarray (pixel (elem dt) k)) (i1 j1 s1 i2 j2 s2 : Z) :
  (forall r c, ~ (in_region img i1 j1 (step t) r c /\ in_region img i2 j2 (step t) r c)) ->
  set_pixel_color dt t img i1 j1 s1 = OK img1 ->
  set_pixel_color dt t img1 i2 j2 s2 = OK img12 ->
  exists img2,
    set_pixel_color dt t img i2 j2 s2 = OK img2 /\
    set_pixel_color dt t img2 i1 j1 s1 = OK img12.
Proof.
  intros Hdisj H1 H2.
  apply set_pixel_color_OK in H1 as (v1 & x1 & Hv1 & Hx1 & ->).
  apply set_pixel_color_OK in H2 as (v2 & x2 & Hv2 & Hx2 & ->).
  unfold set_pixel_color. rewrite Hv2. simpl. rewrite Hx2. simpl.
  eexists. split; [reflexivity|].
  rewrite Hv1. simpl. rewrite Hx1. simpl. f_equal. symmetry. apply setitem2_commute, Hdisj.
Qed.

Lemma set_pixel_color_commute_witness :
  exists img2,
    set_pixel_color int64 (default_generator 2) white3 2 0 0 = OK img2 /\
    set_pixel_color int64 (default_generator 2) img2 0 0 255 =
      OK (grey [[85; 85; 255]; [85; 85; 255]; [0; 0; 255]]).
Proof.
  apply (set_pixel_color_commute int64 (default_generator 2) white3
           (grey [[85; 85; 255]; [85; 85; 255]; [255; 255; 255]]) _ 0 0 255 2 0 0).
  - intros r c [(row1 & _ & Hr1 & _) (row2 & _ & Hr2 & _)].
    destruct r as [|[|[|r]]]; vm_compute in Hr1, Hr2; congruence.
  - vm_compute. reflexivity.
  - vm_compute. reflexivity.
Defined.

(** ** [get_pixel_color]: empty regions and locality *)

Lemma py_slice_empty {A : Type} (l : list A) (a b : Z) :
  (adjust (length l) b <= adjust (length l) a)%nat -> py_slice l a b = [].
Proof.
  intros H. unfold py_slice.
  replace (adjust (length l) b - adjust (length l) a)%nat with 0%nat by lia.
  reflexivity.
Qed.

Lemma py_slice_past_end {A : Type} (l : list A) (a st : Z) :
  0 <= st -> Z.of_nat (length l) <= a -> py_slice l a (a + st) = [].
Proof.
  intros Hst Ha. apply py_slice_empty. rewrite !adjust_nonneg by lia. lia.
Qed.

Lemma sum_rows_empty {A : Type} (f : A -> Z) (l : list (list A)) :
  Forall (fun row => row = []) l -> sum_Z (map (fun row => sum_Z (map f row)) l) = 0.
Proof. induction 1 as [|row l -> _ IH]; [reflexivity|]. simpl. exact IH. Qed.

(** Sampling where the grid has no cell yields 0, not an error: with a zero
    step (NumPy's integer division by zero gives 0), and, the square of the
    step fitting 64 bits, with an origin at or past the last row or the
    last column. When the square of the step does not fit 64 bits the
    sampling raises [OverflowError], whatever the region. *)
Theorem get_pixel_color_empty {k : rank} (t : PixelArtGenerator)
    (img : ndarray (pixel Z k)) (w : nat) (i j : Z) :
  (step t = 0 -> get_pixel_color t img i j = OK 0) /\
  (0 <= step t -> step t * step t < 2 ^ 63 -> Z.of_nat (length img) <= i ->
   get_pixel_color t img i j = OK 0) /\
  (0 <= step t -> step t * step t < 2 ^ 63 -> rect w img -> Z.of_nat w <= j ->
   get_pixel_color t img i j = OK 0) /\
  (2 ^ 63 <= step t * step t -> get_pixel_color t img i j = Raise OverflowError).
Proof.
  unfold get_pixel_color, np_sum, slice2. split; [|split; [|split]].
  - intros Hst. rewrite Hst, !Z.add_0_r.
    rewrite (py_slice_empty img i i) by lia. reflexivity.
  - intros Hst Hfits Hi. rewrite py_slice_past_end by assumption. simpl.
    apply np_floor_divide_zero. rewrite Z.pow_2_r. nia.
  - intros Hst Hfits Hrect Hj. rewrite sum_rows_empty.
    + apply np_floor_divide_zero. rewrite Z.pow_2_r. nia.
    + apply Forall_fmap. eapply Forall_impl; [apply Forall_py_slice, Hrect|].
      intros row Hrow. simpl in *. apply py_slice_past_end; [assumption | rewrite Hrow; lia].
  - intros Hbig. apply np_floor_divide_big. rewrite Z.pow_2_r. exact Hbig.
Qed.

Lemma get_pixel_color_empty_witness :
  get_pixel_color (default_generator 0) docstring_grid 1 1 = OK 0 /\
  get_pixel_color (default_generator 2) docstring_grid 3 0 = OK 0 /\
  get_pixel_color (default_generator 2) docstring_grid 0 3 = OK 0 /\
  get_pixel_color (default_generator (2 ^ 32)) docstring_grid 3 0 = Raise OverflowError.
Proof.
  split; [|split; [|split]].
  - apply (proj1 (get_pixel_color_empty (default_generator 0) docstring_grid 3%nat 1 1)).
    reflexivity.
  - apply (proj1 (proj2 (get_pixel_color_empty (default_generator 2) docstring_grid 3%nat 3 0)));
      simpl; lia.
  - apply (proj1 (proj2 (proj2
             (get_pixel_color_empty (default_generator 2) docstring_grid 3%nat 0 3)))).
    + simpl. lia.
    + simpl. lia.
    + repeat constructor.
    + lia.
  - apply (proj2 (proj2 (proj2
             (get_pixel_color_empty (default_generator (2 ^ 32)) docstring_grid 3%nat 3 0)))).
    vm_compute. discriminate.
Defined.

(** Quantising one block of the grid of blocks does not change the
    brightness sampled on another one. *)
Theorem get_pixel_color_other_block {k : rank} (t : PixelArtGenerator)
    (img img1 : ndarray (pixel Z k)) (w : nat) (o1 o2 : Z * Z) (s : Z) :
  rect w img -> 0 < step t ->
  on_grid (step t) o1 -> on_grid (step t) o2 -> o1 <> o2 ->
  set_pixel_color int64 t img (fst o1) (snd o1) s = OK img1 ->
  get_pixel_color t img1 (fst o2) (snd o2) = get_pixel_color t img (fst o2) (snd o2).
Proof.
  intros Hrect Hst Ho1 Ho2 Hne H.
  destruct (on_grid_nonneg _ _ (Z.lt_le_incl _ _ Hst) Ho1) as [Hi1 Hj1].
  destruct (on_grid_nonneg _ _ (Z.lt_le_incl _ _ Hst) Ho2) as [Hi2 Hj2].
  pose proof (set_pixel_color_OK int64 _ _ _ _ _ _ H) as (v & x & _ & _ & Himg1).
  assert (shape img1 = shape img) as Hs by (rewrite Himg1; apply shape_setitem2).
  symmetry. apply (get_pixel_color_ext t img img1 w); try assumption; [congruence|lia|].
  intros r c Hrc. rewrite Himg1. symmetry. apply lookup2_setitem2_out.
  rewrite in_region_inside by (assumption || lia). intros [_ Hrc1].
  apply Hne. exact (on_grid_disjoint (step t) o1 o2 r c Hst Ho1 Ho2 Hrc1 Hrc).
Qed.

Lemma get_pixel_color_other_block_witness :
  get_pixel_color (default_generator 2) (grey [[85; 85; 24]; [85; 85; 160]; [89; 35; 35]]) 2 0 =
  get_pixel_color (default_generator 2) docstring_grid 2 0.
Proof.
  apply (get_pixel_color_other_block (default_generator 2) docstring_grid _ 3%nat
           (0, 0) (2, 0) 255).
  - repeat constructor.
  - simpl. lia.
  - exists 0%nat, 0%nat. reflexivity.
  - exists 1%nat, 0%nat. reflexivity.
  - discriminate.
  - vm_compute. reflexivity.
Defined.

(** ** [generate]: every block from the original image *)





(** After [generate] every pixel is grey: each of its values, every channel
    of a colour image, holds one number, and the pixel has as many values
    as it had. *)
Theorem generate_grey {k : rank} (t : PixelArtGenerator) (img img' : ndarray (pixel Z k))
    (w : nat) (r c : nat) (old : pixel Z k) :
  rect w img -> 0 < step t ->
  generate t img = OK img' ->
  lookup2 img r c = Some old ->
  exists (x : Z) (p : pixel Z k),
    lookup2 img' r c = Some p /\ values p = replicate (length (values old)) x.
Proof.
  intros Hrect Hst H Hold.
  pose proof (lookup2_rect img w r c old Hrect Hold) as [Hr Hc].
  destruct (block_of_cell (step t) r c Hst) as (a & b & Ha & Hb & Hin).
  pose proof (Z.mul_div_le (Z.of_nat r) (step t) Hst).
  pose proof (Z.mul_div_le (Z.of_nat c) (step t) Hst).
  destruct (generate_blocks t img img' w Hrect Hst H a b) as (s & v & x & _ & _ & _ & Hcells);
    [nia | nia |].
  exists x, (fill x old). split; [apply Hcells; assumption|]. apply values_fill_replicate.
Qed.

Lemma generate_grey_witness :
  exists (x : Z) (p : pixel Z rank3),
    lookup2 (colour [[[85; 85; 85]; [70; 70; 70]]; [[0; 0; 0]; [255; 255; 255]]]) 0 1 = Some p /\
    values p = replicate 3 x.
Proof.
  apply (generate_grey (default_generator 1)
           (colour [[[255; 0; 0]; [12; 200; 31]]; [[0; 0; 0]; [255; 255; 255]]])
           _ 2%nat 0%nat 1%nat [12; 200; 31]).
  - repeat constructor.
  - simpl. lia.
  - vm_compute. reflexivity.
  - reflexivity.
Defined.

(** ** [generate]: a negative step *)

(** With a negative step both ranges are empty: [generate] returns the
    image unchanged, and so does the script for non-zero gradations. *)
Theorem generate_negative_step {k : rank} (t : PixelArtGenerator)
    (image : ndarray (pixel Z k)) :
  step t < 0 -> (2 <= length image)%nat ->
  generate t image = OK image /\
  (forall gradations, gradations <> 0 -> main gradations (step t) image = OK image).
Proof.
  intros Hst Hlen.
  assert (forall t', step t' < 0 -> generate t' image = OK image) as Hgen.
  { intros t' Hst'. unfold generate, getitem.
    destruct (lookup_lt_is_Some_2 image 1) as [row1 ->]; [lia|]. simpl.
    rewrite py_range_neg by assumption. reflexivity. }
  split; [apply Hgen, Hst|].
  intros gradations Hg. unfold main.
  destruct (init_OK gradations (step t) Hg) as [g ->]. simpl. apply Hgen. exact Hst.
Qed.

Lemma generate_negative_step_witness :
  generate (default_generator (-3)) white3 = OK white3 /\
  (forall gradations, gradations <> 0 -> main gradations (-3) white3 = OK white3).
Proof.
  apply (generate_negative_step (default_generator (-3)) white3).
  - simpl. lia.
  - simpl. lia.
Defined.

(** ** 8-bit images through the whole pass *)

(** On an 8-bit image of two rows or more, of one channel or of [ch]
    channels, with a positive step whose square fits 64 bits and a
    generator that quantises the range of the brightness, [generate]
    returns an 8-bit image of the same shape. *)
Theorem generate_eight_bit_image {k : rank} (t : PixelArtGenerator)
    (img : ndarray (pixel Z k)) (w ch : nat) :
  quantises t ch = true -> 0 < step t -> step t * step t < 2 ^ 63 ->
  rect w img -> channels ch img -> eight_bit img -> (2 <= length img)%nat ->
  Z.of_nat (length img) * Z.of_nat w * (Z.of_nat ch * 255) < 2 ^ 63 ->
  exists img', generate t img = OK img' /\ shape img' = shape img /\ eight_bit img'.
Proof. apply generate_eight_bit_closed. Qed.

Lemma generate_eight_bit_image_witness :
  (exists img', generate (default_generator 2) docstring_grid = OK img' /\
                shape img' = shape docstring_grid /\ eight_bit img') /\
  (exists img', generate (default_generator 2) white_rgb = OK img' /\
                shape img' = shape white_rgb /\ eight_bit img').
Proof.
  split.
  - apply (generate_eight_bit_image (default_generator 2) docstring_grid 3%nat 1%nat).
    + vm_compute. reflexivity.
    + simpl. lia.
    + vm_compute. reflexivity.
    + repeat constructor.
    + apply channels_rank2.
    + each_value ltac:(lia).
    + simpl. lia.
    + vm_compute. reflexivity.
  - apply (generate_eight_bit_image (default_generator 2) white_rgb 2%nat 3%nat).
    + vm_compute. reflexivity.
    + simpl. lia.
    + vm_compute. reflexivity.
    + repeat constructor.
    + each_value ltac:(reflexivity).
    + each_value ltac:(lia).
    + simpl. lia.
    + vm_compute. reflexivity.
Defined.

Lemma elem_of_palette (t : PixelArtGenerator) (ch : nat) (b : Z) (v : float) (x : Z) :
  0 <= b <= Z.of_nat ch * 255 -> new_value t b = OK v -> store_int64 v = OK x ->
  In x (palette t ch).
Proof.
  intros Hb Hv Hx. unfold palette. apply in_flat_map. exists (Z.to_nat b).
  split; [apply in_seq; lia|]. rewrite Z2Nat.id by lia. rewrite Hv, Hx. left. reflexivity.
Qed.

Lemma generate_cell_quantised {k : rank} (t : PixelArtGenerator)
    (img img' : ndarray (pixel Z k)) (w ch : nat) (r c : nat) (p : pixel Z k) (x : Z) :
  rect w img -> channels ch img -> eight_bit img ->
  Z.of_nat (length img) * Z.of_nat w * (Z.of_nat ch * 255) < 2 ^ 63 ->
  0 < step t ->
  generate t img = OK img' ->
  lookup2 img' r c = Some p -> In x (values p) ->
  In x (palette t ch).
Proof.
  intros Hrect Hch H8 Hsize Hst H Hp Hx.
  pose proof (generate_shape _ _ _ H) as Hs.
  assert (is_Some (lookup2 img r c)) as [old Hold] by (eapply shape_lookup2; eauto).
  pose proof (lookup2_rect img w r c old Hrect Hold) as [Hr Hc].
  destruct (block_of_cell (step t) r c Hst) as (a & b & Ha & Hb & Hin).
  pose proof (Z.mul_div_le (Z.of_nat r) (step t) Hst).
  pose proof (Z.mul_div_le (Z.of_nat c) (step t) Hst).
  destruct (generate_blocks t img img' w Hrect Hst H a b) as (s & v & y & Hget & Hv & Hy & Hcells);
    [nia | nia |].
  rewrite (Hcells r c old Hin Hold) in Hp. injection Hp as <-.
  rewrite values_fill in Hx. apply in_map_iff in Hx as (z & <- & _).
  apply (elem_of_palette t ch s v y); [|assumption..].
  destruct (get_pixel_color_eight_bit t img w ch (Z.of_nat a * step t) (Z.of_nat b * step t)
              Hrect Hch H8 Hsize ltac:(nia) ltac:(nia) Hst
              (get_pixel_color_step _ _ _ _ _ Hget)) as (s' & Hget' & Hrange).
  congruence.
Qed.



Lemma palette_default (n : Z) (x : Z) :
  In x (palette (default_generator n) 1) -> In x [0; 14; 28; 42; 56; 70; 85].
Proof.
  intros Hx.
  assert (forallb (fun y => existsb (Z.eqb y) [0; 14; 28; 42; 56; 70; 85])
                  (palette (default_generator n) 1) = true) as Hall
    by (vm_compute; reflexivity).
  rewrite forallb_forall in Hall. specialize (Hall x Hx).
  apply existsb_exists in Hall as (y & Hy & Heq). apply Z.eqb_eq in Heq. subst y. exact Hy.
Qed.

(** With the default six gradations, a single-channel 8-bit image (an array
    of rank 2) comes out with the seven grey values 0, 14, 28, 42, 56, 70,
    85 only: no cell is brighter than a third of white. *)
Theorem generate_default_greys (n : Z) (img img' : ndarray (pixel Z rank2)) (w : nat)
    (r c : nat) (x : Z) :
  rect w img -> eight_bit img ->
  Z.of_nat (length img) * Z.of_nat w * 255 < 2 ^ 63 ->
  0 < n ->
  generate (default_generator n) img = OK img' ->
  lookup2 img' r c = Some x ->
  In x [0; 14; 28; 42; 56; 70; 85].
Proof.
  intros Hrect H8 Hsize Hn H Hx. apply (palette_default n).
  apply (generate_cell_quantised (default_generator n) img img' w 1%nat r c x x);
    try assumption.
  - apply channels_rank2.
  - left. reflexivity.
Qed.

Lemma generate_default_greys_witness : In 85 [0; 14; 28; 42; 56; 70; 85].
Proof.
  apply (generate_default_greys 2 white3 (grey [[85; 85; 28]; [85; 85; 28]; [28; 28; 14]])
           3%nat 1%nat 1%nat 85).
  - repeat constructor.
  - each_value ltac:(lia).
  - vm_compute. reflexivity.
  - lia.
  - vm_compute. reflexivity.
  - reflexivity.
Defined.

(** The brightness sampled on an 8-bit image of [ch] channels lies between
    0 and [255 * ch], also on a block clipped by the edge (positive step
    whose square fits 64 bits). *)
Theorem get_pixel_color_range {k : rank} (t : PixelArtGenerator)
    (img : ndarray (pixel Z k)) (w ch : nat) (i j : Z) :
  rect w img -> channels ch img -> eight_bit img ->
  Z.of_nat (length img) * Z.of_nat w * (Z.of_nat ch * 255) < 2 ^ 63 ->
  0 <= i -> 0 <= j -> 0 < step t -> step t * step t < 2 ^ 63 ->
  exists b, get_pixel_color t img i j = OK b /\ 0 <= b <= Z.of_nat ch * 255.
Proof. apply get_pixel_color_eight_bit. Qed.

Lemma get_pixel_color_range_witness :
  (exists b, get_pixel_color (default_generator 2) docstring_grid 0 2 = OK b /\
             0 <= b <= 255) /\
  (exists b, get_pixel_color (default_generator 2) white_rgb 0 0 = OK b /\
             0 <= b <= 765).
Proof.
  split.
  - apply (get_pixel_color_range (default_generator 2) docstring_grid 3%nat 1%nat 0 2).
    + repeat constructor.
    + apply channels_rank2.
    + each_value ltac:(lia).
    + vm_compute. reflexivity.
    + lia.
    + lia.
    + simpl. lia.
    + vm_compute. reflexivity.
  - apply (get_pixel_color_range (default_generator 2) white_rgb 2%nat 3%nat 0 0).
    + repeat constructor.
    + each_value ltac:(reflexivity).
    + each_value ltac:(lia).
    + vm_compute. reflexivity.
    + lia.
    + lia.
    + simpl. lia.
    + vm_compute. reflexivity.
Defined.

(** ** The constructor and the default quantisation *)

(** [PixelArtGenerator(gradations, pixel_step)] fails for zero gradations
    only, with [ZeroDivisionError]; any other integer, negative ones
    included, yields a generator that keeps the step as given. *)
Theorem init_raises_iff (gradations pixel_step : Z) (e : py_error) :
  (init gradations pixel_step = Raise e <-> gradations = 0 /\ e = ZeroDivisionError) /\
  (forall t, init gradations pixel_step = OK t -> step t = pixel_step).
Proof.
  split; [split|].
  - intros H. destruct (Z.eq_dec gradations 0) as [->|Hg].
    + split; [reflexivity|]. vm_compute in H. congruence.
    + destruct (init_OK gradations pixel_step Hg) as [g Hg']. congruence.
  - intros [-> ->]. reflexivity.
  - unfold init. intros t H. inv_bind H. injection H as <-. reflexivity.
Qed.

Lemma init_raises_iff_witness :
  init 0 10 = Raise ZeroDivisionError /\ step (default_generator 10) = 10.
Proof.
  split.
  - apply (proj2 (proj1 (init_raises_iff 0 10 ZeroDivisionError))). split; reflexivity.
  - apply (proj2 (init_raises_iff 6 10 ZeroDivisionError) (default_generator 10)).
    reflexivity.
Defined.

(** With the default six gradations the unit is exactly 42.5: the level of
    an 8-bit brightness [b] is [2b // 85] and the value stored in an integer
    grid is [level * 85 // 6]. *)
Theorem default_quantisation (n b : Z) :
  0 <= b <= 255 ->
  level (default_generator n) b = OK (2 * b / 85) /\
  exists v, new_value (default_generator n) b = OK v /\
            store int64 v = OK ((2 * b / 85) * 85 / 6).
Proof.
  intros Hb.
  assert (forallb (fun k =>
            let b := Z.of_nat k in
            match level (default_generator n) b, new_value (default_generator n) b with
            | OK l, OK v =>
                match store_int64 v with
                | OK x => (l =? 2 * b / 85) && (x =? (2 * b / 85) * 85 / 6)
                | Raise _ => false
                end
            | _, _ => false
            end) (seq 0 256) = true) as Hall by (vm_compute; reflexivity).
  rewrite forallb_forall in Hall. specialize (Hall (Z.to_nat b) ltac:(apply in_seq; lia)).
  cbv zeta in Hall. rewrite Z2Nat.id in Hall by lia.
  destruct (level (default_generator n) b) as [l|]; [|discriminate].
  destruct (new_value (default_generator n) b) as [v|]; [|discriminate].
  change (store int64 v) with (store_int64 v).
  destruct (store_int64 v) as [x|] eqn:Hx; [|discriminate].
  apply andb_true_iff in Hall as [Hl Hv]. apply Z.eqb_eq in Hl, Hv. subst l x.
  split; [reflexivity|]. exists v. split; [reflexivity | exact Hx].
Qed.

Lemma default_quantisation_witness :
  level (default_generator 10) 200 = OK (2 * 200 / 85) /\
  exists v, new_value (default_generator 10) 200 = OK v /\
            store int64 v = OK ((2 * 200 / 85) * 85 / 6).
Proof. apply (default_quantisation 10 200). lia. Defined.

(** ** The script on 8-bit images *)

Lemma gradations_ok_range (gradations : Z) :
  1 <= gradations <= 64 -> gradations_ok gradations = true.
Proof.
  intros Hg.
  assert (forallb (fun k => gradations_ok (Z.of_nat k)) (seq 1 64) = true) as Hall
    by (vm_compute; reflexivity).
  rewrite forallb_forall in Hall. specialize (Hall (Z.to_nat gradations)).
  rewrite Z2Nat.id in Hall by lia. apply Hall. apply in_seq. lia.
Qed.

(** For every number of gradations from 1 to 64 and every positive block
    size whose square fits 64 bits, the script turns a single-channel 8-bit
    image of two rows or more into an 8-bit image of the same shape: no
    exception is raised. *)
Theorem main_eight_bit (gradations size : Z) (image : ndarray (pixel Z rank2)) (w : nat) :
  1 <= gradations <= 64 -> 0 < size -> size * size < 2 ^ 63 ->
  rect w image -> eight_bit image -> (2 <= length image)%nat ->
  Z.of_nat (length image) * Z.of_nat w * 255 < 2 ^ 63 ->
  exists img', main gradations size image = OK img' /\
               shape img' = shape image /\ eight_bit img'.
Proof.
  intros Hg Hsize Hfits Hrect H8 Hlen Hbound.
  pose proof (gradations_ok_range gradations Hg) as Hok.
  unfold gradations_ok in Hok. unfold main, init.
  destruct (int_true_divide 255 gradations) as [g|]; [|discriminate]. simpl.
  apply (generate_eight_bit_closed {| step := size; gradation := g |} image w 1%nat);
    try assumption.
  apply channels_rank2.
Qed.

Lemma main_eight_bit_witness :
  exists img', main 7 2 docstring_grid = OK img' /\
               shape img' = shape docstring_grid /\ eight_bit img'.
Proof.
  apply (main_eight_bit 7 2 docstring_grid 3%nat).
  - lia.
  - lia.
  - lia.
  - repeat constructor.
  - each_value ltac:(lia).
  - simpl. lia.
  - vm_compute. reflexivity.
Defined.
